(** * rhytmiq: the playback control core of [MediaPlayer]

    A shallow embedding of [src/rhytmiq/media_player.py]: the player's
    attributes as a record, its methods as functions that pass the record
    along, Python exceptions as an outcome that keeps the attributes as
    they were when the exception left the method. *)

From Stdlib Require Import String List Bool Arith Lia QArith Qround Lqa Permutation.
Import ListNotations.

Local Open Scope string_scope.
Local Open Scope list_scope.
Local Open Scope nat_scope.

(** ** Enumerations of [utils.constants] *)

Module State.
Inductive t := STOPPED | PLAYING | PAUSED.

Definition eqb (a b : t) : bool :=
  match a, b with
  | STOPPED, STOPPED | PLAYING, PLAYING | PAUSED, PAUSED => true
  | _, _ => false
  end.
End State.

Module Loop.
Inductive t := NONE | ONE | ALL.

Definition eqb (a b : t) : bool :=
  match a, b with
  | NONE, NONE | ONE, ONE | ALL, ALL => true
  | _, _ => false
  end.
End Loop.

(** ** Python values used by the player *)

(** A media argument is [None], a [str] or a [Path]; [not media] holds of
    [None] and of the empty string. *)
Definition falsy (media : option string) : bool :=
  match media with
  | None => true
  | Some m => String.eqb m ""
  end.

(** An insertion-ordered [dict[str, str]]: the pairs in insertion order.
    A Python dict never holds a key twice, see [dict_wf]. *)
Definition dict := list (string * string).

Definition keys (d : dict) : list string := map fst d.
Definition items (d : dict) : list (string * string) := d.

Fixpoint nodupb (l : list string) : bool :=
  match l with
  | [] => true
  | x :: l' => negb (existsb (String.eqb x) l') && nodupb l'
  end.

Definition dict_wf (d : dict) : bool := nodupb (keys d).

(** [d[k]]; [None] is Python's KeyError. *)
Fixpoint dict_get (k : string) (d : dict) : option string :=
  match d with
  | [] => None
  | (k', v) :: d' => if String.eqb k' k then Some v else dict_get k d'
  end.

(** [d[k] = v]: an existing key keeps its place, a new one goes last. *)
Fixpoint dict_set (k v : string) (d : dict) : dict :=
  match d with
  | [] => [(k, v)]
  | (k', v') :: d' =>
      if String.eqb k' k then (k', v) :: d' else (k', v') :: dict_set k v d'
  end.

(** [dict(pairs)]. *)
Definition dict_of (pairs : list (string * string)) : dict :=
  fold_left (fun d kv => dict_set (fst kv) (snd kv) d) pairs [].

(** [l.index(x)]; [None] is Python's ValueError. *)
Fixpoint index (x : string) (l : list string) : option nat :=
  match l with
  | [] => None
  | y :: l' => if String.eqb y x then Some 0 else option_map S (index x l')
  end.

(** ** [random.shuffle]

    The library's shuffle, driven by the draws the generator will give:
    each draw picks one of the items not placed yet.  Every permutation of
    the list is the result of some draws. *)

Fixpoint remove_nth {A} (n : nat) (l : list A) : list A :=
  match l, n with
  | [], _ => []
  | _ :: l', 0 => l'
  | x :: l', S n' => x :: remove_nth n' l'
  end.

Fixpoint shuffle_draws {A} (k : nat) (draws : list nat) (l : list A)
  : list A * list nat :=
  match k, l with
  | S k', x :: _ =>
      let j := hd 0 draws mod length l in
      let (rest, draws') := shuffle_draws k' (tl draws) (remove_nth j l) in
      (nth j l x :: rest, draws')
  | _, _ => (l, draws)
  end.

Definition random_shuffle {A} (draws : list nat) (l : list A) : list A * list nat :=
  shuffle_draws (length l) draws l.

(** ** Observable events

    What the player does to the outside, most recent first: the calls into
    [utils.playback], the notifications, the sleeps of the monitor thread,
    the redraws of the playlist view, and each entry of the end-of-song
    handler. *)

Inductive Event :=
| Play (media : string) (ok : bool)   (* play(media) and what it returned *)
| Stop                                (* stop() *)
| Pause                               (* pause() *)
| Unpause                             (* unpause() *)
| DecreaseVolume (step : Q)           (* decrease_volume(step) *)
| IncreaseVolume (step : Q)           (* increase_volume(step) *)
| Notify (message : string)           (* self.notify(message) *)
| Sleep (seconds : Q)                 (* sleep(seconds) *)
| PlaylistClear                       (* await self.playlist.clear() *)
| PlaylistPopulate                    (* await self.playlist.populate() *)
| SongEnd.                            (* handle_song_end entered *)

(** ** The player's attributes *)

Record Metadata := mkMetadata {
  audio_title : string;
  artist_name : string;
  album : string;
  duration : Q
}.

Record MediaPlayer := mkMediaPlayer {
  (* reactive attributes *)
  info : Metadata;
  state : State.t;
  shuffle : bool;
  loop : Loop.t;
  volume : Q;
  (* set in __init__ *)
  playing_song : option string;
  current_playlist : option (list (string * string));
  current_playlist_media : option (string * string);  (* None: the empty dict *)
  playing_from_playlist : bool;
  monitor_thread : bool;        (* a monitor thread exists and is alive *)
  running : bool;
  state_switch : bool;
  (* self.playlist.songs *)
  songs : dict;
  (* the outside *)
  trace : list Event;
  rng : list nat
}.

Definition set_info v s :=
  mkMediaPlayer v (state s) (shuffle s) (loop s) (volume s) (playing_song s)
    (current_playlist s) (current_playlist_media s) (playing_from_playlist s)
    (monitor_thread s) (running s) (state_switch s) (songs s) (trace s) (rng s).
Definition set_state v s :=
  mkMediaPlayer (info s) v (shuffle s) (loop s) (volume s) (playing_song s)
    (current_playlist s) (current_playlist_media s) (playing_from_playlist s)
    (monitor_thread s) (running s) (state_switch s) (songs s) (trace s) (rng s).
Definition set_shuffle v s :=
  mkMediaPlayer (info s) (state s) v (loop s) (volume s) (playing_song s)
    (current_playlist s) (current_playlist_media s) (playing_from_playlist s)
    (monitor_thread s) (running s) (state_switch s) (songs s) (trace s) (rng s).
Definition set_loop v s :=
  mkMediaPlayer (info s) (state s) (shuffle s) v (volume s) (playing_song s)
    (current_playlist s) (current_playlist_media s) (playing_from_playlist s)
    (monitor_thread s) (running s) (state_switch s) (songs s) (trace s) (rng s).
Definition set_volume v s :=
  mkMediaPlayer (info s) (state s) (shuffle s) (loop s) v (playing_song s)
    (current_playlist s) (current_playlist_media s) (playing_from_playlist s)
    (monitor_thread s) (running s) (state_switch s) (songs s) (trace s) (rng s).
Definition set_playing_song v s :=
  mkMediaPlayer (info s) (state s) (shuffle s) (loop s) (volume s) v
    (current_playlist s) (current_playlist_media s) (playing_from_playlist s)
    (monitor_thread s) (running s) (state_switch s) (songs s) (trace s) (rng s).
Definition set_current_playlist v s :=
  mkMediaPlayer (info s) (state s) (shuffle s) (loop s) (volume s) (playing_song s)
    v (current_playlist_media s) (playing_from_playlist s)
    (monitor_thread s) (running s) (state_switch s) (songs s) (trace s) (rng s).
Definition set_current_playlist_media v s :=
  mkMediaPlayer (info s) (state s) (shuffle s) (loop s) (volume s) (playing_song s)
    (current_playlist s) v (playing_from_playlist s)
    (monitor_thread s) (running s) (state_switch s) (songs s) (trace s) (rng s).
Definition set_playing_from_playlist v s :=
  mkMediaPlayer (info s) (state s) (shuffle s) (loop s) (volume s) (playing_song s)
    (current_playlist s) (current_playlist_media s) v
    (monitor_thread s) (running s) (state_switch s) (songs s) (trace s) (rng s).
Definition set_monitor_thread v s :=
  mkMediaPlayer (info s) (state s) (shuffle s) (loop s) (volume s) (playing_song s)
    (current_playlist s) (current_playlist_media s) (playing_from_playlist s)
    v (running s) (state_switch s) (songs s) (trace s) (rng s).
Definition set_running v s :=
  mkMediaPlayer (info s) (state s) (shuffle s) (loop s) (volume s) (playing_song s)
    (current_playlist s) (current_playlist_media s) (playing_from_playlist s)
    (monitor_thread s) v (state_switch s) (songs s) (trace s) (rng s).
Definition set_state_switch v s :=
  mkMediaPlayer (info s) (state s) (shuffle s) (loop s) (volume s) (playing_song s)
    (current_playlist s) (current_playlist_media s) (playing_from_playlist s)
    (monitor_thread s) (running s) v (songs s) (trace s) (rng s).
Definition set_songs v s :=
  mkMediaPlayer (info s) (state s) (shuffle s) (loop s) (volume s) (playing_song s)
    (current_playlist s) (current_playlist_media s) (playing_from_playlist s)
    (monitor_thread s) (running s) (state_switch s) v (trace s) (rng s).
Definition set_rng v s :=
  mkMediaPlayer (info s) (state s) (shuffle s) (loop s) (volume s) (playing_song s)
    (current_playlist s) (current_playlist_media s) (playing_from_playlist s)
    (monitor_thread s) (running s) (state_switch s) (songs s) (trace s) v.

(** Record one more event. *)
Definition emit (e : Event) s :=
  mkMediaPlayer (info s) (state s) (shuffle s) (loop s) (volume s) (playing_song s)
    (current_playlist s) (current_playlist_media s) (playing_from_playlist s)
    (monitor_thread s) (running s) (state_switch s) (songs s) (e :: trace s) (rng s).

(** [MediaPlayer.__init__] with the class attributes; the playlist view
    starts with [songs0] and the generator with [draws]. *)
Definition init (songs0 : dict) (draws : list nat) : MediaPlayer :=
  {| info := mkMetadata "No title available" "Unknown artist" "No album info" 0;
     state := State.STOPPED;
     shuffle := false;
     loop := Loop.NONE;
     volume := 1 # 2;
     playing_song := None;
     current_playlist := None;
     current_playlist_media := None;
     playing_from_playlist := false;
     monitor_thread := false;
     running := true;
     state_switch := false;
     songs := songs0;
     trace := [];
     rng := draws |}.

(** ** Exceptions *)

Inductive Exn := KeyError | ValueError | IndexError | TypeError | RecursionError.

(** A method returns, or an exception leaves it; either way the attributes
    are the ones written so far. *)
Inductive Outcome :=
| Ret (s : MediaPlayer)
| Raise (e : Exn) (s : MediaPlayer).

Definition bind (o : Outcome) (f : MediaPlayer -> Outcome) : Outcome :=
  match o with
  | Ret s => f s
  | Raise e s => Raise e s
  end.

Notation "o >>= f" := (bind o f) (at level 50, left associativity).

Definition final (o : Outcome) : MediaPlayer :=
  match o with Ret s | Raise _ s => s end.

(** ** What the player calls but does not define

    [play] of [utils.playback] answers by the history so far and the media;
    [get_metadata] of [utils.helpers]; the constant [VOLUME_STEP] of
    [utils.constants]; [fl] rounds a real result to the float the
    interpreter stores. *)
Record World := mkWorld {
  play : list Event -> string -> bool;
  get_metadata : string -> Metadata;
  VOLUME_STEP : Q;
  fl : Q -> Q
}.

(** ** The methods of [MediaPlayer] *)

Definition Qlt_bool (x y : Q) : bool := negb (Qle_bool y x).

Section Methods.

Variable W : World.

(** The common tail of [next_song] and [previous_song] once [new_index]
    is chosen: read the title at that index and its path, store both in
    [current_playlist_media], and hand the path to [play_song]. *)
Definition select_and_play
    (play_song : option string -> bool -> MediaPlayer -> Outcome)
    (titles : list string) (new_index : nat) (s : MediaPlayer) : Outcome :=
  match nth_error titles new_index with
  | None => Raise IndexError s
  | Some song_title =>
      match dict_get song_title (songs s) with
      | None => Raise KeyError s
      | Some song_path =>
          let s := set_current_playlist_media (Some (song_title, song_path)) s in
          play_song (Some song_path) (playing_from_playlist s) s
      end
  end.

(** [next_song], with the [play_song] it calls as a parameter. *)
Definition next_song_with
    (play_song : option string -> bool -> MediaPlayer -> Outcome)
    (s : MediaPlayer) : Outcome :=
  if falsy (playing_song s) then Ret s
  else if negb (playing_from_playlist s) && Loop.eqb (loop s) Loop.NONE then
    Ret (set_state State.STOPPED (emit Stop s))
  else
    let next_song_path := playing_song s in
    if playing_from_playlist s && negb (Loop.eqb (loop s) Loop.ONE) then
      let titles := keys (songs s) in
      match current_playlist_media s with
      | None => Raise KeyError s
      | Some (title, _) =>
          match index title titles with
          | None => Raise ValueError s
          | Some current_index =>
              if current_index + 1 <? length titles then
                select_and_play play_song titles (current_index + 1) s
              else if Loop.eqb (loop s) Loop.ALL then
                select_and_play play_song titles 0 s
              else
                Ret (set_state State.STOPPED (emit Stop s))
          end
      end
    else play_song next_song_path (playing_from_playlist s) s.

(** [previous_song], with the [play_song] it calls as a parameter. *)
Definition previous_song_with
    (play_song : option string -> bool -> MediaPlayer -> Outcome)
    (s : MediaPlayer) : Outcome :=
  if negb (playing_from_playlist s) && Loop.eqb (loop s) Loop.NONE then
    Ret (set_state State.STOPPED (emit Stop s))
  else
    let previous_song_path := playing_song s in
    if playing_from_playlist s && negb (Loop.eqb (loop s) Loop.ONE) then
      let titles := keys (songs s) in
      match current_playlist_media s with
      | None => Raise KeyError s
      | Some (title, _) =>
          match index title titles with
          | None => Raise ValueError s
          | Some current_index =>
              if 0 <? current_index then
                select_and_play play_song titles (current_index - 1) s
              else if Loop.eqb (loop s) Loop.ALL then
                select_and_play play_song titles (length titles - 1) s
              else
                Ret (set_state State.STOPPED (emit Stop s))
          end
      end
    else play_song previous_song_path (playing_from_playlist s) s.

(** [play_song].  It calls [next_song], which calls it back: [depth] is
    the number of nested [play_song] frames the interpreter still
    allows, and RecursionError is raised when there is none left. *)
Fixpoint play_song (depth : nat) (media : option string) (from_playlist : bool)
    (s : MediaPlayer) : Outcome :=
  match depth with
  | 0 => Raise RecursionError s
  | S depth' =>
      match media with
      | None => Ret s
      | Some m =>
          if falsy media then Ret s
          else
            let s := set_state_switch true s in
            let s := set_playing_from_playlist from_playlist s in
            let ok := play W (trace s) m in
            let s := emit (Play m ok) s in
            if ok then
              let s := set_state State.PLAYING s in
              let s := set_playing_song (Some m) s in
              let s := set_info (get_metadata W m) s in
              let s := if negb (monitor_thread s)
                       then set_monitor_thread true s else s in
              Ret (set_state_switch false s)
            else
              next_song_with (play_song depth') s >>= fun s =>
              let s := emit (Notify "Unable to play the media file.") s in
              Ret (set_state_switch false s)
      end
  end.

Definition next_song (depth : nat) : MediaPlayer -> Outcome :=
  next_song_with (play_song depth).

Definition previous_song (depth : nat) : MediaPlayer -> Outcome :=
  previous_song_with (play_song depth).

(** [play_from_playlist]. *)
Definition play_from_playlist (depth : nat) (media : string * string)
    (s : MediaPlayer) : Outcome :=
  let s := set_current_playlist_media (Some media) s in
  play_song depth (Some (snd media)) true s.

(** [handle_song_end]. *)
Definition handle_song_end (depth : nat) (s : MediaPlayer) : Outcome :=
  let s := emit SongEnd s in
  if State.eqb (state s) State.PAUSED then Ret s
  else if negb (playing_from_playlist s) then
    if negb (Loop.eqb (loop s) Loop.NONE) then
      play_song depth (playing_song s) false s
    else Ret (set_state State.STOPPED s)
  else
    match songs s with
    | [] => Ret (set_state State.STOPPED s)
    | _ :: _ => next_song depth s
    end.

(** One turn of the [while self.running] loop of [monitor_song_end], the
    mixer answering [busy] to [get_busy()]. *)
Definition monitor_iteration (depth : nat) (busy : bool) (s : MediaPlayer)
  : Outcome :=
  if state_switch s then
    Ret (emit (Sleep (1 # 2)) s)            (* sleep(0.5); continue *)
  else if State.eqb (state s) State.PLAYING && negb busy then
    handle_song_end depth s >>= fun s =>
    Ret (emit (Sleep (1 # 2)) s)
  else Ret s.

(** [monitor_song_end], along the answers the mixer gives turn by turn. *)
Fixpoint monitor_song_end (depth : nat) (busy : list bool) (s : MediaPlayer)
  : Outcome :=
  match busy with
  | [] => Ret s
  | b :: busy' =>
      if running s then
        monitor_iteration depth b s >>= monitor_song_end depth busy'
      else Ret s
  end.

(** [toggle_play_state]. *)
Definition toggle_play_state (depth : nat) (s : MediaPlayer) : Outcome :=
  if State.eqb (state s) State.PLAYING then
    Ret (set_state State.PAUSED (emit Pause s))
  else if State.eqb (state s) State.PAUSED then
    Ret (set_state State.PLAYING (emit Unpause s))
  else if State.eqb (state s) State.STOPPED
          && match playing_song s with Some _ => true | None => false end then
    play_song depth (playing_song s) (playing_from_playlist s) s
  else Ret s.

(** [change_loop_state]. *)
Definition change_loop_state (s : MediaPlayer) : MediaPlayer :=
  if Loop.eqb (loop s) Loop.NONE then set_loop Loop.ONE s
  else if Loop.eqb (loop s) Loop.ONE then set_loop Loop.ALL s
  else set_loop Loop.NONE s.

(** Modelled from the spec: [Playlist.clear] and [Playlist.populate] of
    [components/playlist.py], which is not among the sources.  They
    rebuild the displayed list from [songs] and leave [songs] as it is. *)
Definition playlist_clear (s : MediaPlayer) : MediaPlayer := emit PlaylistClear s.
Definition playlist_populate (s : MediaPlayer) : MediaPlayer := emit PlaylistPopulate s.

(** [toggle_shuffle_state]; [dict(None)] raises TypeError. *)
Definition toggle_shuffle_state (s : MediaPlayer) : Outcome :=
  match songs s with
  | [] => Ret s
  | _ :: _ =>
      (if negb (shuffle s) then
         let current := items (songs s) in
         let s := set_current_playlist (Some current) s in
         let (shuffled_playlist, draws) := random_shuffle (rng s) current in
         Ret (set_songs (dict_of shuffled_playlist) (set_rng draws s))
       else
         match current_playlist s with
         | None => Raise TypeError s
         | Some current => Ret (set_songs (dict_of current) s)
         end)
      >>= fun s =>
      let s := playlist_clear s in
      let s := playlist_populate s in
      Ret (set_shuffle (negb (shuffle s)) s)
  end.

(** [decrease_media_volume]. *)
Definition decrease_media_volume (s : MediaPlayer) : MediaPlayer :=
  let s := emit (DecreaseVolume (VOLUME_STEP W)) s in
  set_volume (if Qlt_bool (VOLUME_STEP W) (volume s)
              then fl W (volume s - VOLUME_STEP W) else 0%Q) s.

(** [increase_media_volume]. *)
Definition increase_media_volume (s : MediaPlayer) : MediaPlayer :=
  let s := emit (IncreaseVolume (VOLUME_STEP W)) s in
  set_volume (if Qlt_bool (fl W (volume s + VOLUME_STEP W)) 1
              then fl W (volume s + VOLUME_STEP W) else 1%Q) s.

(** [action_stop_song].  Its second statement is the comparison
    [self.state == State.STOPPED], whose value is dropped. *)
Definition action_stop_song (s : MediaPlayer) : MediaPlayer :=
  let s := emit Stop s in
  let _ := State.eqb (state s) State.STOPPED in
  s.

(** ** The commands the player receives

    The key bindings and buttons, the calls of the two child views
    ([play_song] from the file explorer, [play_from_playlist] from the
    playlist), a turn of the monitor thread, and an edit of the songs by
    the playlist view. *)
Inductive Command :=
| CPlaySong (media : option string) (from_playlist : bool)
| CPlayFromPlaylist (media : string * string)
| CTogglePlay
| CStopSong
| CNextSong
| CPreviousSong
| CIncreaseVolume
| CDecreaseVolume
| CLoop
| CShuffle
| CMonitor (busy : bool)
| CPlaylistEdit (new_songs : dict).

Definition run (depth : nat) (c : Command) (s : MediaPlayer) : Outcome :=
  match c with
  | CPlaySong media from_playlist => play_song depth media from_playlist s
  | CPlayFromPlaylist media => play_from_playlist depth media s
  | CTogglePlay => toggle_play_state depth s
  | CStopSong => Ret (action_stop_song s)
  | CNextSong => next_song depth s
  | CPreviousSong => previous_song depth s
  | CIncreaseVolume => Ret (increase_media_volume s)
  | CDecreaseVolume => Ret (decrease_media_volume s)
  | CLoop => Ret (change_loop_state s)
  | CShuffle => toggle_shuffle_state s
  | CMonitor busy =>
      if monitor_thread s && running s then
        match monitor_iteration depth busy s with
        | Ret s' => Ret s'
        | Raise e s' => Raise e (set_monitor_thread false s')
        end
      else Ret s
  | CPlaylistEdit new_songs => Ret (set_songs new_songs s)
  end.

(** The states the player can be in: [init], then any commands, each
    one leaving the attributes it wrote whether it returned or raised. *)
Inductive reachable (songs0 : dict) (draws : list nat) : MediaPlayer -> Prop :=
| reachable_init : reachable songs0 draws (init songs0 draws)
| reachable_step s depth c :
    reachable songs0 draws s ->
    reachable songs0 draws (final (run depth c s)).

End Methods.

(** ** The vocabulary of the statements *)

(** The stop both methods fall back to: [stop()], then [state = STOPPED]. *)
Definition stopped (s : MediaPlayer) : MediaPlayer :=
  set_state State.STOPPED (emit Stop s).

(** The playlist entry [e] becomes the selection and its path goes to
    [play_song]. *)
Definition play_at (W : World) (depth : nat) (e : string * string)
    (s : MediaPlayer) : Outcome :=
  play_song W depth (Some (snd e)) (playing_from_playlist s)
    (set_current_playlist_media (Some e) s).

(** A relation between the attributes before and after a method, kept
    whether the method returns or raises. *)
Definition keeps (R : MediaPlayer -> MediaPlayer -> Prop)
    (f : MediaPlayer -> Outcome) : Prop :=
  forall s, R s (final (f s)).

(** Once [SongEnd] is in the trace it stays there. *)
Definition keeps_SongEnd (s s' : MediaPlayer) : Prop :=
  In SongEnd (trace s) -> In SongEnd (trace s').

(** [shuffle] and [current_playlist] are written by
    [toggle_shuffle_state] and by nothing else. *)
Definition same_snapshot (s s' : MediaPlayer) : Prop :=
  shuffle s' = shuffle s /\ current_playlist s' = current_playlist s.

(** While shuffle is on, the order to go back to is there. *)
Definition snapshot_kept (s : MediaPlayer) : Prop :=
  shuffle s = true -> current_playlist s <> None.

(** [clamp(x, lo, hi)] as the specification words it. *)
Definition clamp (lo hi x : Q) : Q :=
  if Qlt_bool x lo then lo else if Qlt_bool hi x then hi else x.

(** What holds of the attributes an exception leaves behind, and of the
    ones a return leaves behind. *)
Definition on_raise (P : MediaPlayer -> Prop) (o : Outcome) : Prop :=
  match o with
  | Ret _ => True
  | Raise _ s => P s
  end.

Definition on_return (P : MediaPlayer -> Prop) (o : Outcome) : Prop :=
  match o with
  | Ret s => P s
  | Raise _ _ => True
  end.

(** A player that is not STOPPED has a song loaded. *)
Definition song_loaded (s : MediaPlayer) : Prop :=
  state s <> State.STOPPED -> falsy (playing_song s) = false.

(** The attributes that playing and navigating have no business with. *)
Definition same_settings (s s' : MediaPlayer) : Prop :=
  songs s' = songs s
  /\ loop s' = loop s
  /\ shuffle s' = shuffle s
  /\ volume s' = volume s
  /\ current_playlist s' = current_playlist s
  /\ running s' = running s
  /\ rng s' = rng s.

(** The attributes that [toggle_shuffle_state] has no business with. *)
Definition same_playback (s s' : MediaPlayer) : Prop :=
  state s' = state s
  /\ playing_song s' = playing_song s
  /\ volume s' = volume s
  /\ state_switch s' = state_switch s.

(** The rejected [play] calls and the warnings among some events. *)
Fixpoint rejections (l : list Event) : nat :=
  match l with
  | [] => 0
  | Play _ false :: l' => S (rejections l')
  | _ :: l' => rejections l'
  end.

Fixpoint warnings (l : list Event) : nat :=
  match l with
  | [] => 0
  | Notify _ :: l' => S (warnings l')
  | _ :: l' => warnings l'
  end.

(** The events from [s] to [s'] hold as many warnings as rejected
    [play] calls. *)
Definition warned_each_rejection (s s' : MediaPlayer) : Prop :=
  exists l, trace s' = l ++ trace s /\ rejections l = warnings l.

(** ** Fixtures *)

(** A mixer that accepts the first file it is given and rejects every
    file from then on: the files are gone once the first one plays. *)
Definition world_first_only : World :=
  {| play := fun history _ => match history with [] => true | _ :: _ => false end;
     get_metadata := fun m => mkMetadata m "Unknown artist" "No album info" 0;
     VOLUME_STEP := 1 # 20;
     fl := fun q => q |}.

(** A mixer that rejects the paths of [bad] and nothing else, metadata
    whose title is the path, a step of 0.05 and exact arithmetic. *)
Definition world_rejecting (bad : list string) : World :=
  {| play := fun _ m => negb (existsb (String.eqb m) bad);
     get_metadata := fun m => mkMetadata m "Unknown artist" "No album info" 0;
     VOLUME_STEP := 1 # 20;
     fl := fun q => q |}.

Definition abc : dict := [("A", "a.mp3"); ("B", "b.mp3"); ("C", "c.mp3")].

(** The player after [play_from_playlist] of [e] on a fresh player showing
    [abc], under the loop mode [l]. *)
Definition playing_entry (W : World) (l : Loop.t) (e : string * string) : MediaPlayer :=
  final (play_from_playlist W 3 e (set_loop l (init abc []))).

(** A coarse float: a real rounded down to a multiple of 1/1024. *)
Definition round_down (q : Q) : Q := (inject_Z (Qfloor (q * 1024)) / 1024)%Q.

Definition world_round_down : World :=
  {| play := fun _ _ => true;
     get_metadata := fun m => mkMetadata m "Unknown artist" "No album info" 0;
     VOLUME_STEP := 1 # 20;
     fl := round_down |}.

(** ** The enumerations *)

Lemma state_eqb_eq a b : State.eqb a b = true <-> a = b.
Proof. destruct a, b; simpl; split; intros H; try reflexivity; discriminate. Qed.

Lemma loop_eqb_eq a b : Loop.eqb a b = true <-> a = b.
Proof. destruct a, b; simpl; split; intros H; try reflexivity; discriminate. Qed.

Lemma loop_eqb_neq a b : a <> b -> Loop.eqb a b = false.
Proof. destruct a, b; simpl; intros H; try reflexivity; now contradiction H. Qed.

(** ** Lists and dictionaries *)

Lemma existsb_eqb_In x l : existsb (String.eqb x) l = true <-> In x l.
Proof.
  rewrite existsb_exists. split.
  - intros [y [Hin Heq]]. apply String.eqb_eq in Heq. now subst.
  - intros Hin. exists x. split; [assumption | apply String.eqb_refl].
Qed.

Lemma nodupb_NoDup l : nodupb l = true <-> NoDup l.
Proof.
  induction l as [|x l IH]; simpl.
  - split; [constructor | reflexivity].
  - rewrite andb_true_iff, negb_true_iff, IH. split.
    + intros [Hx Hl]. constructor; [|assumption].
      intros Hin. apply existsb_eqb_In in Hin. congruence.
    + intros H. inversion H as [|? ? Hx Hl]; subst. split; [|assumption].
      destruct (existsb (String.eqb x) l) eqn:E; [|reflexivity].
      apply existsb_eqb_In in E. contradiction.
Qed.

Lemma index_lt x l i : index x l = Some i -> i < length l.
Proof.
  revert i. induction l as [|y l IH]; simpl; intros i H; [discriminate|].
  destruct (String.eqb y x).
  - injection H as <-. lia.
  - destruct (index x l) as [j|]; [|discriminate].
    injection H as <-. specialize (IH j eq_refl). lia.
Qed.

Lemma index_nth_error x l i : index x l = Some i -> nth_error l i = Some x.
Proof.
  revert i. induction l as [|y l IH]; simpl; intros i H; [discriminate|].
  destruct (String.eqb y x) eqn:E.
  - injection H as <-. apply String.eqb_eq in E. now subst.
  - destruct (index x l) as [j|]; [|discriminate].
    injection H as <-. simpl. now apply IH.
Qed.

Lemma index_None x l : index x l = None <-> ~ In x l.
Proof.
  induction l as [|y l IH]; simpl.
  - split; [intros _ [] | reflexivity].
  - destruct (String.eqb y x) eqn:E.
    + apply String.eqb_eq in E. subst.
      split; [discriminate | intros H; exfalso; apply H; now left].
    + apply String.eqb_neq in E.
      destruct (index x l) as [j|]; simpl.
      * split; [discriminate|]. intros H. exfalso.
        assert (Hn : ~ In x l) by (intros Hin; apply H; now right).
        apply IH in Hn. discriminate.
      * split; [|reflexivity]. intros _ [H|H]; [contradiction|].
        now apply (proj1 IH).
Qed.

Lemma dict_get_nth_error (d : dict) j e :
  dict_wf d = true -> nth_error d j = Some e -> dict_get (fst e) d = Some (snd e).
Proof.
  unfold dict_wf, keys. revert j.
  induction d as [|[k v] d IH]; intros j Hwf Hj.
  - destruct j; discriminate.
  - simpl in Hwf. apply andb_true_iff in Hwf as [Hk Hwf].
    destruct j as [|j]; simpl in Hj.
    + injection Hj as <-. simpl. now rewrite String.eqb_refl.
    + simpl. destruct (String.eqb k (fst e)) eqn:E.
      * apply String.eqb_eq in E. subst k.
        apply negb_true_iff in Hk.
        assert (Hin : In (fst e) (map fst d))
          by (apply in_map, (nth_error_In _ _ Hj)).
        apply existsb_eqb_In in Hin. congruence.
      * now apply (IH j).
Qed.

Lemma keys_nth_error (d : dict) j :
  nth_error (keys d) j = option_map fst (nth_error d j).
Proof. unfold keys. apply nth_error_map. Qed.

Lemma keys_length (d : dict) : length (keys d) = length d.
Proof. unfold keys. apply length_map. Qed.

(** ** Navigation: [next_song] and [previous_song] *)

Lemma select_and_play_entry ps s j e :
  dict_wf (songs s) = true ->
  nth_error (songs s) j = Some e ->
  select_and_play ps (keys (songs s)) j s
  = ps (Some (snd e)) (playing_from_playlist s)
       (set_current_playlist_media (Some e) s).
Proof.
  intros Hwf Hj. unfold select_and_play.
  rewrite keys_nth_error, Hj. simpl.
  rewrite (dict_get_nth_error _ _ _ Hwf Hj).
  destruct e; reflexivity.
Qed.

Lemma nth_error_lt {A} (l : list A) j : j < length l -> exists e, nth_error l j = Some e.
Proof.
  intros H. destruct (nth_error l j) as [e|] eqn:E; [now exists e|].
  apply nth_error_None in E. lia.
Qed.

Section Navigation.

Variable W : World.
Variables (depth : nat) (s : MediaPlayer) (t p : string) (i : nat).

Hypothesis from_playlist : playing_from_playlist s = true.
Hypothesis not_one : loop s <> Loop.ONE.
Hypothesis wf : dict_wf (songs s) = true.
Hypothesis selection : current_playlist_media s = Some (t, p).
Hypothesis at_i : index t (keys (songs s)) = Some i.

Lemma next_song_in_range :
  falsy (playing_song s) = false ->
  i + 1 < length (songs s) ->
  exists e, nth_error (songs s) (i + 1) = Some e
            /\ next_song W depth s = play_at W depth e s.
Proof.
  intros Hsong Hlt. destruct (nth_error_lt _ _ Hlt) as [e He].
  exists e. split; [assumption|].
  unfold next_song, next_song_with, play_at.
  rewrite Hsong, from_playlist, (loop_eqb_neq _ _ not_one), selection, at_i, keys_length. simpl.
  apply Nat.ltb_lt in Hlt. rewrite Hlt.
  rewrite (select_and_play_entry _ _ _ _ wf He), from_playlist. reflexivity.
Qed.

Lemma next_song_wraps :
  falsy (playing_song s) = false ->
  length (songs s) <= i + 1 -> loop s = Loop.ALL ->
  exists e, nth_error (songs s) 0 = Some e
            /\ next_song W depth s = play_at W depth e s.
Proof.
  intros Hsong Hge Hall.
  assert (Hpos : 0 < length (songs s)).
  { apply index_lt in at_i. rewrite keys_length in at_i. lia. }
  destruct (nth_error_lt _ _ Hpos) as [e He].
  exists e. split; [assumption|].
  unfold next_song, next_song_with, play_at.
  rewrite Hsong, from_playlist, (loop_eqb_neq _ _ not_one), selection, at_i, keys_length. simpl.
  apply Nat.ltb_ge in Hge. rewrite Hge, Hall. simpl.
  rewrite (select_and_play_entry _ _ _ _ wf He), from_playlist. reflexivity.
Qed.

Lemma next_song_stops :
  falsy (playing_song s) = false ->
  length (songs s) <= i + 1 -> loop s = Loop.NONE ->
  next_song W depth s = Ret (stopped s).
Proof.
  intros Hsong Hge Hnone.
  unfold next_song, next_song_with.
  rewrite Hsong, from_playlist, (loop_eqb_neq _ _ not_one), selection, at_i, keys_length. simpl.
  apply Nat.ltb_ge in Hge. rewrite Hge, Hnone. reflexivity.
Qed.

Lemma previous_song_in_range :
  1 <= i ->
  exists e, nth_error (songs s) (i - 1) = Some e
            /\ previous_song W depth s = play_at W depth e s.
Proof.
  intros Hpos.
  assert (Hlt : i - 1 < length (songs s)).
  { apply index_lt in at_i. rewrite keys_length in at_i. lia. }
  destruct (nth_error_lt _ _ Hlt) as [e He].
  exists e. split; [assumption|].
  unfold previous_song, previous_song_with, play_at.
  rewrite from_playlist, (loop_eqb_neq _ _ not_one), selection, at_i. simpl.
  assert (Hb : (0 <? i) = true) by (apply Nat.ltb_lt; lia).
  rewrite Hb.
  rewrite (select_and_play_entry _ _ _ _ wf He), from_playlist. reflexivity.
Qed.

Lemma previous_song_wraps :
  i = 0 -> loop s = Loop.ALL ->
  exists e, nth_error (songs s) (length (songs s) - 1) = Some e
            /\ previous_song W depth s = play_at W depth e s.
Proof.
  intros Hzero Hall.
  assert (Hlt : length (songs s) - 1 < length (songs s)).
  { apply index_lt in at_i. rewrite keys_length in at_i. lia. }
  destruct (nth_error_lt _ _ Hlt) as [e He].
  exists e. split; [assumption|].
  unfold previous_song, previous_song_with, play_at.
  rewrite from_playlist, (loop_eqb_neq _ _ not_one), selection, at_i, keys_length, Hzero, Hall. simpl.
  rewrite (select_and_play_entry _ _ _ _ wf He), from_playlist. reflexivity.
Qed.

Lemma previous_song_stops :
  i = 0 -> loop s = Loop.NONE ->
  previous_song W depth s = Ret (stopped s).
Proof.
  intros Hzero Hnone.
  unfold previous_song, previous_song_with.
  rewrite from_playlist, (loop_eqb_neq _ _ not_one), selection, at_i, Hzero, Hnone. reflexivity.
Qed.

End Navigation.

(** ** [play_song] *)

Lemma falsy_Some m : m <> "" -> falsy (Some m) = false.
Proof. intros H. simpl. now apply String.eqb_neq. Qed.

(** The mixer accepts the media: it plays, and the switch flag is down. *)
Lemma play_song_accepted W depth m from_playlist s :
  m <> "" ->
  play W (trace s) m = true ->
  exists s',
    play_song W (S depth) (Some m) from_playlist s = Ret s'
    /\ state s' = State.PLAYING
    /\ playing_song s' = Some m
    /\ playing_from_playlist s' = from_playlist
    /\ state_switch s' = false
    /\ monitor_thread s' = true
    /\ current_playlist_media s' = current_playlist_media s
    /\ songs s' = songs s
    /\ trace s' = Play m true :: trace s.
Proof.
  intros Hm Hok. cbn -[falsy]. rewrite (falsy_Some _ Hm), Hok. cbn.
  destruct (monitor_thread s) eqn:E; cbn; eexists; (split; [reflexivity|]); cbn;
    repeat split; assumption.
Qed.

(** The mixer rejects the media: [next_song], the warning, the flag down. *)
Lemma play_song_rejected W depth m from_playlist s :
  m <> "" ->
  play W (trace s) m = false ->
  play_song W (S depth) (Some m) from_playlist s
  = next_song W depth
      (emit (Play m false)
         (set_playing_from_playlist from_playlist (set_state_switch true s)))
    >>= fun s' =>
    Ret (set_state_switch false (emit (Notify "Unable to play the media file.") s')).
Proof.
  intros Hm Hok. cbn -[falsy next_song_with]. rewrite (falsy_Some _ Hm), Hok.
  reflexivity.
Qed.

(** Whenever [play_song] returns on a non-empty media, the flag is down. *)
Lemma play_song_returns_switch_off W depth m from_playlist s s' :
  m <> "" ->
  play_song W depth (Some m) from_playlist s = Ret s' ->
  state_switch s' = false.
Proof.
  intros Hm. destruct depth as [|depth]; [discriminate|].
  destruct (play W (trace s) m) eqn:Hok.
  - destruct (play_song_accepted W depth m from_playlist s Hm Hok)
      as (s1 & Hrun & _ & _ & _ & Hsw & _).
    rewrite Hrun. intros H. injection H as <-. exact Hsw.
  - rewrite (play_song_rejected W depth m from_playlist s Hm Hok).
    destruct (next_song W depth _) as [s1|e s1]; simpl; [|discriminate].
    intros H. injection H as <-. reflexivity.
Qed.

(** ** The examples of the specification *)

Example next_from_B :
  next_song (world_rejecting []) 3 (playing_entry (world_rejecting []) Loop.ALL ("B", "b.mp3"))
  = play_at (world_rejecting []) 3 ("C", "c.mp3")
      (playing_entry (world_rejecting []) Loop.ALL ("B", "b.mp3")).
Proof. vm_compute. reflexivity. Qed.

Example next_from_C_wraps :
  current_playlist_media
    (final (next_song (world_rejecting []) 3
              (playing_entry (world_rejecting []) Loop.ALL ("C", "c.mp3"))))
  = Some ("A", "a.mp3").
Proof. vm_compute. reflexivity. Qed.

Example previous_from_A_wraps :
  playing_song
    (final (previous_song (world_rejecting []) 3
              (playing_entry (world_rejecting []) Loop.ALL ("A", "a.mp3"))))
  = Some "c.mp3".
Proof. vm_compute. reflexivity. Qed.

Example next_from_C_stops :
  next_song (world_rejecting []) 3 (playing_entry (world_rejecting []) Loop.NONE ("C", "c.mp3"))
  = Ret (stopped (playing_entry (world_rejecting []) Loop.NONE ("C", "c.mp3"))).
Proof. vm_compute. reflexivity. Qed.

(** ** Claim C1: which entry [next_song] and [previous_song] go to *)

(** C1.  The player plays from the playlist, the loop
    mode is not ONE, and the selected title stands at index [i] of the
    displayed order.  [next_song], when a song is loaded ([playing_song]
    is not empty), goes to index [i+1] if there is one, else to index 0
    under ALL, else stops.  [previous_song] goes to index [i-1] if [i] is
    not 0, else to the last index under ALL, else stops.  Going to an
    entry stores its (title, path) as the selection and hands its path to
    [play_song]; when the mixer accepts it, that entry is the one playing
    and the one selected. *)
Theorem C1_navigation_targets W depth s t p i :
  playing_from_playlist s = true ->
  loop s <> Loop.ONE ->
  dict_wf (songs s) = true ->
  current_playlist_media s = Some (t, p) ->
  index t (keys (songs s)) = Some i ->
  (falsy (playing_song s) = false ->
     (i + 1 < length (songs s) ->
        exists e, nth_error (songs s) (i + 1) = Some e
                  /\ next_song W depth s = play_at W depth e s)
     /\ (length (songs s) <= i + 1 -> loop s = Loop.ALL ->
        exists e, nth_error (songs s) 0 = Some e
                  /\ next_song W depth s = play_at W depth e s)
     /\ (length (songs s) <= i + 1 -> loop s = Loop.NONE ->
        next_song W depth s = Ret (stopped s)))
  /\ (1 <= i ->
        exists e, nth_error (songs s) (i - 1) = Some e
                  /\ previous_song W depth s = play_at W depth e s)
  /\ (i = 0 -> loop s = Loop.ALL ->
        exists e, nth_error (songs s) (length (songs s) - 1) = Some e
                  /\ previous_song W depth s = play_at W depth e s)
  /\ (i = 0 -> loop s = Loop.NONE ->
        previous_song W depth s = Ret (stopped s))
  /\ (forall e, snd e <> "" -> play W (trace s) (snd e) = true ->
        exists s', play_at W (S depth) e s = Ret s'
                   /\ current_playlist_media s' = Some e
                   /\ playing_song s' = Some (snd e)
                   /\ state s' = State.PLAYING
                   /\ trace s' = Play (snd e) true :: trace s).
Proof.
  intros Hfrom Hone Hwf Hsel Hi.
  split; [intros Hsong; split; [|split]|split; [|split; [|split]]].
  - now apply (next_song_in_range W depth s t p i).
  - now apply (next_song_wraps W depth s t p i).
  - now apply (next_song_stops W depth s t p i).
  - now apply (previous_song_in_range W depth s t p i).
  - now apply (previous_song_wraps W depth s t p i).
  - now apply (previous_song_stops W depth s t p i).
  - intros e He Hok. unfold play_at.
    destruct (play_song_accepted W depth (snd e) (playing_from_playlist s)
                (set_current_playlist_media (Some e) s) He Hok)
      as (s' & Hrun & Hst & Hsong & _ & _ & _ & Hcpm & _ & Htr).
    exists s'. repeat split; assumption.
Qed.

(** At B of A, B, C under ALL, with b.mp3 loaded: next goes to C and
    previous to A. *)
Lemma C1_navigation_targets_witness :
  let W := world_rejecting [] in
  let s := playing_entry W Loop.ALL ("B", "b.mp3") in
  (playing_from_playlist s = true
   /\ loop s <> Loop.ONE
   /\ dict_wf (songs s) = true
   /\ current_playlist_media s = Some ("B", "b.mp3")
   /\ index "B" (keys (songs s)) = Some 1
   /\ falsy (playing_song s) = false
   /\ 1 + 1 < length (songs s)
   /\ 1 <= 1)
  /\ (exists e, nth_error (songs s) (1 + 1) = Some e
                /\ next_song W 3 s = play_at W 3 e s)
  /\ (exists e, nth_error (songs s) (1 - 1) = Some e
                /\ previous_song W 3 s = play_at W 3 e s).
Proof.
  intros W s.
  assert (H1 : playing_from_playlist s = true) by (vm_compute; reflexivity).
  assert (H2 : loop s <> Loop.ONE) by (vm_compute; discriminate).
  assert (H3 : dict_wf (songs s) = true) by (vm_compute; reflexivity).
  assert (H4 : current_playlist_media s = Some ("B", "b.mp3")) by (vm_compute; reflexivity).
  assert (H5 : index "B" (keys (songs s)) = Some 1) by (vm_compute; reflexivity).
  assert (H6 : falsy (playing_song s) = false) by (vm_compute; reflexivity).
  assert (H7 : 1 + 1 < length (songs s)) by (vm_compute; lia).
  assert (H8 : 1 <= 1) by lia.
  destruct (C1_navigation_targets W 3 s "B" "b.mp3" 1 H1 H2 H3 H4 H5)
    as (Hnext & Hprev & _).
  split; [repeat split; assumption|].
  split.
  - exact (proj1 (Hnext H6) H7).
  - exact (Hprev H8).
Defined.

(** Two neighbouring cases.  A fresh player asked to play A from the
    playlist, whose file the mixer rejects, has no loaded song:
    [next_song] returns at once, as it does whenever no song is loaded.
    And when A plays and the mixer rejects b.mp3, [next_song] goes to B,
    whose rejection sends [play_song] on to C. *)
Example next_song_no_song_and_rejected_entry :
  (let W := world_rejecting ["a.mp3"] in
   let s := playing_entry W Loop.NONE ("A", "a.mp3") in
   playing_from_playlist s = true
   /\ loop s <> Loop.ONE
   /\ dict_wf (songs s) = true
   /\ current_playlist_media s = Some ("A", "a.mp3")
   /\ index "A" (keys (songs s)) = Some 0
   /\ nth_error (songs s) (0 + 1) = Some ("B", "b.mp3")
   /\ next_song W 3 s = Ret s
   /\ next_song W 3 s <> play_at W 3 ("B", "b.mp3") s)
  /\ (let W := world_rejecting ["b.mp3"] in
      let s := playing_entry W Loop.NONE ("A", "a.mp3") in
      playing_from_playlist s = true
      /\ loop s <> Loop.ONE
      /\ falsy (playing_song s) = false
      /\ current_playlist_media s = Some ("A", "a.mp3")
      /\ index "A" (keys (songs s)) = Some 0
      /\ nth_error (songs s) (0 + 1) = Some ("B", "b.mp3")
      /\ current_playlist_media (final (next_song W 3 s)) = Some ("C", "c.mp3")
      /\ playing_song (final (next_song W 3 s)) = Some "c.mp3"
      /\ current_playlist_media (final (next_song W 3 s)) <> Some ("B", "b.mp3")).
Proof.
  split; intros W s;
    repeat split; try (vm_compute; reflexivity); vm_compute; discriminate.
Qed.

(** ** Claim C2: a selection that is no longer displayed *)

(** With a loaded song, [next_song] raises ValueError out of
    [titles.index] when the selected title is not displayed;
    [previous_song] does so with or without a loaded song. *)
Lemma stale_selection_raises W depth s t p :
  playing_from_playlist s = true ->
  loop s <> Loop.ONE ->
  current_playlist_media s = Some (t, p) ->
  ~ In t (keys (songs s)) ->
  (falsy (playing_song s) = false -> next_song W depth s = Raise ValueError s)
  /\ previous_song W depth s = Raise ValueError s.
Proof.
  intros Hfrom Hone Hsel Hin.
  apply index_None in Hin.
  pose proof (loop_eqb_neq _ _ Hone) as E.
  split.
  - intros Hsong. unfold next_song, next_song_with.
    rewrite Hsong, Hfrom, E, Hsel, Hin. reflexivity.
  - unfold previous_song, previous_song_with.
    rewrite Hfrom, E, Hsel, Hin. reflexivity.
Qed.

(** C2 fails on the code.  B of A, B, C is playing from the playlist under
    loop NONE; the playlist view then shows no song, or shows A and C
    only.  [next_song] and [previous_song] each raise ValueError; neither
    stops the mixer nor sets the state to STOPPED. *)
Theorem C2_stale_selection_raises_ValueError :
  let W := world_rejecting [] in
  let s := playing_entry W Loop.NONE ("B", "b.mp3") in
  let emptied := final (run W 3 (CPlaylistEdit []) s) in
  let without_B := final (run W 3 (CPlaylistEdit [("A", "a.mp3"); ("C", "c.mp3")]) s) in
  run W 3 CNextSong emptied = Raise ValueError emptied
  /\ run W 3 CPreviousSong emptied = Raise ValueError emptied
  /\ run W 3 CNextSong without_B = Raise ValueError without_B
  /\ run W 3 CPreviousSong without_B = Raise ValueError without_B
  /\ state emptied = State.PLAYING
  /\ trace emptied = [Play "b.mp3" true].
Proof. intros W s emptied without_B. repeat split; vm_compute; reflexivity. Qed.

(** ** Claim C3: the stop command *)

(** [action_stop_song] stops the mixer and changes no attribute. *)
Lemma action_stop_song_emits s : action_stop_song s = emit Stop s.
Proof. reflexivity. Qed.

(** C3 fails on the code.  The stop command stops the mixer and keeps the
    loaded song, but the state is left as it was: a player that is
    PLAYING is still PLAYING after the command. *)
Theorem C3_stop_leaves_state :
  (forall s,
      trace (action_stop_song s) = Stop :: trace s
      /\ playing_song (action_stop_song s) = playing_song s
      /\ state (action_stop_song s) = state s)
  /\ (let W := world_rejecting [] in
      let s := final (run W 3 (CPlaySong (Some "a.mp3") false) (init [] [])) in
      state s = State.PLAYING
      /\ run W 3 CStopSong s = Ret (emit Stop s)
      /\ state (final (run W 3 CStopSong s)) = State.PLAYING
      /\ state (final (run W 3 CStopSong s)) <> State.STOPPED).
Proof.
  split.
  - intros s. repeat split.
  - repeat split; try (vm_compute; reflexivity). vm_compute. discriminate.
Qed.

(** ** Claim C7: no loaded song *)

(** [next_song] returns at once when no song is loaded: nothing is
    played and no attribute changes. *)
Lemma next_song_without_song W depth s :
  falsy (playing_song s) = true -> next_song W depth s = Ret s.
Proof. intros H. unfold next_song, next_song_with. now rewrite H. Qed.

(** C7 fails on the code for [previous_song], which has no such test.  A
    fresh player is asked to play B from the playlist A, B, C and the
    mixer rejects b.mp3: no song is loaded and B is selected.
    [previous_song] then selects A and plays a.mp3, under loop NONE as
    under ALL; and when the playlist shows no song it raises ValueError.
    [next_song] on the same states returns at once. *)
Theorem C7_previous_song_without_song_plays :
  let W := world_rejecting ["b.mp3"] in
  let s := playing_entry W Loop.NONE ("B", "b.mp3") in
  let s_all := playing_entry W Loop.ALL ("B", "b.mp3") in
  playing_song s = None
  /\ state s = State.STOPPED
  /\ next_song W 3 s = Ret s
  /\ (exists s', previous_song W 3 s = Ret s'
                 /\ state s' = State.PLAYING
                 /\ playing_song s' = Some "a.mp3"
                 /\ current_playlist_media s' = Some ("A", "a.mp3")
                 /\ trace s' = Play "a.mp3" true :: trace s)
  /\ (exists s', previous_song W 3 s_all = Ret s'
                 /\ state s' = State.PLAYING
                 /\ playing_song s' = Some "a.mp3")
  /\ previous_song W 3 (set_songs [] s) = Raise ValueError (set_songs [] s).
Proof.
  intros W s s_all. repeat split; try (vm_compute; reflexivity).
  - eexists. split; [vm_compute; reflexivity|]. repeat split.
  - eexists. split; [vm_compute; reflexivity|]. repeat split.
Qed.

(** ** Claim C4: the switch flag around [play_song] *)

(** A playlist of one entry whose file the mixer rejects, under loop mode
    ALL with a song loaded: [next_song] wraps to that entry again and
    again, so [play_song] on it is left by RecursionError at every
    recursion limit, the switch flag up and no warning given. *)
Lemma single_entry_rejected_recurses W t m depth : forall s,
  m <> "" ->
  (forall history, play W history m = false) ->
  songs s = [(t, m)] ->
  loop s = Loop.ALL ->
  falsy (playing_song s) = false ->
  exists s',
    play_song W depth (Some m) true (set_current_playlist_media (Some (t, m)) s)
    = Raise RecursionError s'
    /\ (state_switch s = true \/ 0 < depth -> state_switch s' = true)
    /\ warnings (trace s') = warnings (trace s).
Proof.
  induction depth as [|depth IH]; intros s Hm Hrej Hsongs Hloop Hsong.
  - eexists. split; [reflexivity|]. split; [|reflexivity].
    intros [H|H]; [exact H | inversion H].
  - rewrite (play_song_rejected W depth m true _ Hm (Hrej _)).
    set (s1 := emit (Play m false)
                 (set_playing_from_playlist true
                    (set_state_switch true
                       (set_current_playlist_media (Some (t, m)) s)))).
    assert (Hone : loop s1 <> Loop.ONE)
      by (change (loop s1) with (loop s); rewrite Hloop; discriminate).
    assert (Hwf : dict_wf (songs s1) = true)
      by (change (songs s1) with (songs s); now rewrite Hsongs).
    assert (Hidx : index t (keys (songs s1)) = Some 0).
    { change (songs s1) with (songs s). rewrite Hsongs. simpl.
      now rewrite String.eqb_refl. }
    assert (Hge : length (songs s1) <= 0 + 1)
      by (change (songs s1) with (songs s); rewrite Hsongs; simpl; lia).
    destruct (next_song_wraps W depth s1 t m 0 eq_refl Hone Hwf eq_refl Hidx
                Hsong Hge Hloop) as (e & He & Hnext).
    change (songs s1) with (songs s) in He. rewrite Hsongs in He.
    injection He as <-.
    rewrite Hnext.
    change (play_at W depth (t, m) s1)
      with (play_song W depth (Some m) true
              (set_current_playlist_media (Some (t, m)) s1)).
    destruct (IH s1 Hm Hrej Hsongs Hloop Hsong) as (s' & Hrun & Hsw & Hwarn).
    exists s'. rewrite Hrun. split; [reflexivity|]. split.
    + intros _. apply Hsw. now left.
    + exact Hwarn.
Qed.

(** C4 fails on the code: [play_song] has no handler around its failure
    path, so an exception out of the [next_song] it calls leaves it with
    [state_switch] still true and no warning given.  First, x.mp3 plays,
    the loop mode is set to ALL and the playlist holds B alone, whose
    file the mixer rejects: playing B from the playlist is left by
    RecursionError at every recursion limit.  Second, B plays from the
    playlist, the playlist is emptied, and c.mp3, which the mixer
    rejects, is asked for: ValueError at every recursion limit.  The
    flag was false before both calls. *)
Theorem C4_play_song_raise_leaves_state_switch :
  let W := world_rejecting ["b.mp3"] in
  let s :=
    final (run W 1 CLoop
      (final (run W 1 CLoop
        (final (run W 1 (CPlaySong (Some "x.mp3") false)
                  (init [("B", "b.mp3")] [])))))) in
  let W' := world_rejecting ["c.mp3"] in
  let stale :=
    final (run W' 1 (CPlaylistEdit [])
      (final (run W' 1 (CPlayFromPlaylist ("B", "b.mp3")) (init abc [])))) in
  (state_switch s = false
   /\ forall depth, exists s',
        run W (S depth) (CPlayFromPlaylist ("B", "b.mp3")) s
        = Raise RecursionError s'
        /\ state_switch s' = true
        /\ warnings (trace s') = 0)
  /\ (state_switch stale = false
      /\ forall depth, exists s',
           run W' (S depth) (CPlaySong (Some "c.mp3") true) stale
           = Raise ValueError s'
           /\ state_switch s' = true
           /\ warnings (trace s') = 0).
Proof.
  intros W s W' stale. split; split; try (vm_compute; reflexivity).
  - intros depth.
    change (run W (S depth) (CPlayFromPlaylist ("B", "b.mp3")) s)
      with (play_song W (S depth) (Some "b.mp3") true
              (set_current_playlist_media (Some ("B", "b.mp3")) s)).
    destruct (single_entry_rejected_recurses W "B" "b.mp3" (S depth) s)
      as (s' & Hrun & Hsw & Hwarn);
      try (vm_compute; reflexivity); try discriminate.
    exists s'. split; [exact Hrun|]. split; [apply Hsw; right; lia|].
    rewrite Hwarn. vm_compute. reflexivity.
  - intros depth.
    change (run W' (S depth) (CPlaySong (Some "c.mp3") true) stale)
      with (play_song W' (S depth) (Some "c.mp3") true stale).
    assert (Hm : "c.mp3" <> "") by discriminate.
    assert (Hrej : play W' (trace stale) "c.mp3" = false) by (vm_compute; reflexivity).
    rewrite (play_song_rejected W' depth "c.mp3" true stale Hm Hrej).
    set (s1 := emit (Play "c.mp3" false)
                 (set_playing_from_playlist true (set_state_switch true stale))).
    assert (Hnext : next_song W' depth s1 = Raise ValueError s1).
    { apply (stale_selection_raises W' depth s1 "B" "b.mp3");
        try (vm_compute; reflexivity).
      - vm_compute. discriminate.
      - vm_compute. intros []. }
    rewrite Hnext. exists s1. split; [reflexivity|].
    split; vm_compute; reflexivity.
Qed.

(** ** What the methods leave alone

    A relation between the attributes before and after that holds across
    each single write of [play_song], [next_song] and [previous_song]
    holds across the methods built from them, whether they return or
    raise. *)

Section Frame.

Variable W : World.
Variable R : MediaPlayer -> MediaPlayer -> Prop.

Hypothesis R_refl : forall s, R s s.
Hypothesis R_trans : forall s1 s2 s3, R s1 s2 -> R s2 s3 -> R s1 s3.
Hypothesis R_emit : forall e s, R s (emit e s).
Hypothesis R_state : forall v s, R s (set_state v s).
Hypothesis R_state_switch : forall v s, R s (set_state_switch v s).
Hypothesis R_playing_from_playlist : forall v s, R s (set_playing_from_playlist v s).
Hypothesis R_playing_song : forall v s, R s (set_playing_song v s).
Hypothesis R_info : forall v s, R s (set_info v s).
Hypothesis R_monitor_thread : forall v s, R s (set_monitor_thread v s).
Hypothesis R_current_playlist_media : forall v s, R s (set_current_playlist_media v s).

Lemma keeps_bind f g : keeps R f -> keeps R g -> keeps R (fun s => f s >>= g).
Proof.
  intros Hf Hg s. specialize (Hf s).
  destruct (f s) as [s1|e s1]; simpl in *; [|assumption].
  apply (R_trans _ s1); [assumption | apply Hg].
Qed.

Lemma select_and_play_keeps ps titles j :
  (forall media fp, keeps R (ps media fp)) -> keeps R (select_and_play ps titles j).
Proof.
  intros Hps s. unfold select_and_play.
  destruct (nth_error titles j) as [t|]; [|apply R_refl].
  destruct (dict_get t (songs s)) as [p|]; [|apply R_refl].
  eapply R_trans; [apply R_current_playlist_media | apply Hps].
Qed.

Lemma next_song_with_keeps ps :
  (forall media fp, keeps R (ps media fp)) -> keeps R (next_song_with ps).
Proof.
  intros Hps s. unfold next_song_with.
  destruct (falsy (playing_song s)); [apply R_refl|].
  destruct (negb (playing_from_playlist s) && Loop.eqb (loop s) Loop.NONE).
  { simpl. eapply R_trans; [apply R_emit | apply R_state]. }
  destruct (playing_from_playlist s && negb (Loop.eqb (loop s) Loop.ONE));
    [|apply Hps].
  destruct (current_playlist_media s) as [[t p]|]; [|apply R_refl].
  destruct (index t (keys (songs s))) as [i|]; [|apply R_refl].
  destruct (i + 1 <? length (keys (songs s)));
    [now apply select_and_play_keeps|].
  destruct (Loop.eqb (loop s) Loop.ALL); [now apply select_and_play_keeps|].
  simpl. eapply R_trans; [apply R_emit | apply R_state].
Qed.

Lemma previous_song_with_keeps ps :
  (forall media fp, keeps R (ps media fp)) -> keeps R (previous_song_with ps).
Proof.
  intros Hps s. unfold previous_song_with.
  destruct (negb (playing_from_playlist s) && Loop.eqb (loop s) Loop.NONE).
  { simpl. eapply R_trans; [apply R_emit | apply R_state]. }
  destruct (playing_from_playlist s && negb (Loop.eqb (loop s) Loop.ONE));
    [|apply Hps].
  destruct (current_playlist_media s) as [[t p]|]; [|apply R_refl].
  destruct (index t (keys (songs s))) as [i|]; [|apply R_refl].
  destruct (0 <? i); [now apply select_and_play_keeps|].
  destruct (Loop.eqb (loop s) Loop.ALL); [now apply select_and_play_keeps|].
  simpl. eapply R_trans; [apply R_emit | apply R_state].
Qed.

Lemma play_song_keeps depth media fp : keeps R (play_song W depth media fp).
Proof.
  revert media fp. induction depth as [|depth IH]; intros media fp s.
  - apply R_refl.
  - destruct media as [m|]; [|apply R_refl].
    cbn -[falsy next_song_with].
    destruct (falsy (Some m)); [apply R_refl|].
    set (s1 := set_playing_from_playlist fp (set_state_switch true s)).
    assert (H1 : R s s1).
    { eapply R_trans; [apply R_state_switch | apply R_playing_from_playlist]. }
    change (trace (set_playing_from_playlist fp (set_state_switch true s)))
      with (trace s).
    destruct (play W (trace s) m).
    + apply (R_trans _ _ _ H1).
      eapply R_trans; [apply R_emit|].
      eapply R_trans; [apply R_state|].
      eapply R_trans; [apply R_playing_song|].
      eapply R_trans; [apply R_info|].
      match goal with
      | |- R ?a (final (Ret (set_state_switch false (if ?c then _ else _)))) =>
          destruct c
      end; simpl.
      * eapply R_trans; [apply R_monitor_thread | apply R_state_switch].
      * apply R_state_switch.
    + apply (R_trans _ _ _ H1).
      eapply R_trans; [apply (R_emit (Play m false))|].
      apply (keeps_bind (next_song_with (play_song W depth))
               (fun s' => Ret (set_state_switch false
                   (emit (Notify "Unable to play the media file.") s')))).
      * apply next_song_with_keeps. exact IH.
      * intros s'. simpl. eapply R_trans; [apply R_emit | apply R_state_switch].
Qed.

Lemma next_song_keeps depth : keeps R (next_song W depth).
Proof. apply next_song_with_keeps. intros. apply play_song_keeps. Qed.

Lemma previous_song_keeps depth : keeps R (previous_song W depth).
Proof. apply previous_song_with_keeps. intros. apply play_song_keeps. Qed.

Lemma handle_song_end_keeps depth : keeps R (handle_song_end W depth).
Proof.
  intros s. unfold handle_song_end.
  eapply R_trans; [apply (R_emit SongEnd)|].
  destruct (State.eqb (state (emit SongEnd s)) State.PAUSED); [apply R_refl|].
  destruct (negb (playing_from_playlist (emit SongEnd s))).
  - destruct (negb (Loop.eqb (loop (emit SongEnd s)) Loop.NONE));
      [apply play_song_keeps | apply R_state].
  - destruct (songs (emit SongEnd s)); [apply R_state | apply next_song_keeps].
Qed.

Lemma monitor_iteration_keeps depth busy : keeps R (monitor_iteration W depth busy).
Proof.
  intros s. unfold monitor_iteration.
  destruct (state_switch s); [apply R_emit|].
  destruct (State.eqb (state s) State.PLAYING && negb busy); [|apply R_refl].
  apply (keeps_bind (handle_song_end W depth) (fun s' => Ret (emit (Sleep (1 # 2)) s'))).
  - apply handle_song_end_keeps.
  - intros s'. apply R_emit.
Qed.

Lemma toggle_play_state_keeps depth : keeps R (toggle_play_state W depth).
Proof.
  intros s. unfold toggle_play_state.
  destruct (State.eqb (state s) State.PLAYING).
  { simpl. eapply R_trans; [apply R_emit | apply R_state]. }
  destruct (State.eqb (state s) State.PAUSED).
  { simpl. eapply R_trans; [apply R_emit | apply R_state]. }
  destruct (State.eqb (state s) State.STOPPED
            && match playing_song s with Some _ => true | None => false end);
    [apply play_song_keeps | apply R_refl].
Qed.

Lemma play_from_playlist_keeps depth media : keeps R (play_from_playlist W depth media).
Proof.
  intros s. unfold play_from_playlist.
  eapply R_trans; [apply R_current_playlist_media | apply play_song_keeps].
Qed.

End Frame.

(** ** Claims C5 and C8: the monitor thread *)

Lemma handle_song_end_traced W depth s :
  In SongEnd (trace (final (handle_song_end W depth s))).
Proof.
  assert (Hplay : forall media fp, keeps keeps_SongEnd (play_song W depth media fp)).
  { intros media fp.
    apply play_song_keeps; unfold keeps_SongEnd; simpl; auto. }
  assert (Hnext : keeps keeps_SongEnd (next_song W depth)).
  { apply next_song_with_keeps; unfold keeps_SongEnd; simpl; auto. }
  assert (H0 : In SongEnd (trace (emit SongEnd s))) by (simpl; auto).
  unfold handle_song_end.
  destruct (State.eqb (state (emit SongEnd s)) State.PAUSED); [exact H0|].
  destruct (negb (playing_from_playlist (emit SongEnd s))).
  - destruct (negb (Loop.eqb (loop (emit SongEnd s)) Loop.NONE));
      [now apply Hplay | exact H0].
  - destruct (songs (emit SongEnd s)); [exact H0 | now apply Hnext].
Qed.

(** A turn taken with the flag down, the state PLAYING and the mixer idle
    does enter the handler. *)
Lemma monitor_iteration_handles W depth s :
  state_switch s = false -> state s = State.PLAYING ->
  monitor_iteration W depth false s
  = handle_song_end W depth s >>= (fun s' => Ret (emit (Sleep (1 # 2)) s'))
  /\ In SongEnd (trace (final (monitor_iteration W depth false s))).
Proof.
  intros Hsw Hst. unfold monitor_iteration. rewrite Hsw, Hst. simpl.
  split; [reflexivity|].
  pose proof (handle_song_end_traced W depth s) as H.
  destruct (handle_song_end W depth s); simpl in *; auto.
Qed.

(** C5.  A turn of the monitor loop taken while [state_switch] is true
    sleeps and does nothing else, whatever the mixer answers and
    whatever the state is: the handler is not entered and no attribute
    changes. *)
Theorem C5_monitor_skips_during_switch W depth busy s :
  state_switch s = true ->
  monitor_iteration W depth busy s = Ret (emit (Sleep (1 # 2)) s)
  /\ trace (final (monitor_iteration W depth busy s)) = Sleep (1 # 2) :: trace s
  /\ (~ In SongEnd (trace s) ->
      ~ In SongEnd (trace (final (monitor_iteration W depth busy s)))).
Proof.
  intros Hsw. unfold monitor_iteration. rewrite Hsw. simpl.
  repeat split. intros Hnot [H|H]; [discriminate | contradiction].
Qed.

(** The flag is up while a.mp3 is PLAYING and the mixer answers idle. *)
Lemma C5_monitor_skips_during_switch_witness :
  let W := world_rejecting [] in
  let s := set_state_switch true (playing_entry W Loop.ALL ("A", "a.mp3")) in
  state_switch s = true
  /\ state s = State.PLAYING
  /\ monitor_iteration W 3 false s = Ret (emit (Sleep (1 # 2)) s).
Proof.
  intros W s.
  assert (Hsw : state_switch s = true) by (vm_compute; reflexivity).
  split; [exact Hsw|]. split; [vm_compute; reflexivity|].
  exact (proj1 (C5_monitor_skips_during_switch W 3 false s Hsw)).
Defined.

(** With the flag down, a turn that does not find the state PLAYING and
    the mixer idle goes back to the loop test with no sleep. *)
Lemma monitor_iteration_no_sleep W depth busy s :
  state_switch s = false ->
  State.eqb (state s) State.PLAYING && negb busy = false ->
  monitor_iteration W depth busy s = Ret s.
Proof. intros Hsw Hc. unfold monitor_iteration. now rewrite Hsw, Hc. Qed.

Lemma monitor_song_end_spins W depth busy n s :
  state_switch s = false ->
  State.eqb (state s) State.PLAYING && negb busy = false ->
  monitor_song_end W depth (repeat busy n) s = Ret s.
Proof.
  intros Hsw Hc. induction n as [|n IH]; simpl; [reflexivity|].
  destruct (running s); [|reflexivity].
  rewrite (monitor_iteration_no_sleep W depth busy s Hsw Hc). simpl. exact IH.
Qed.

(** C8 fails on the code.  On a fresh player, which is STOPPED, and on a
    player whose song is still sounding, any number of turns of the
    monitor loop go by with no sleep between them: the trace is
    unchanged. *)
Theorem C8_monitor_spins_without_sleep :
  let W := world_rejecting [] in
  let idle := init abc [] in
  let sounding := playing_entry W Loop.NONE ("A", "a.mp3") in
  state idle = State.STOPPED
  /\ running idle = true
  /\ state sounding = State.PLAYING
  /\ running sounding = true
  /\ (forall depth busy, monitor_iteration W depth busy idle = Ret idle)
  /\ (forall depth, monitor_iteration W depth true sounding = Ret sounding)
  /\ (forall depth busy n,
        monitor_song_end W depth (repeat busy n) idle = Ret idle)
  /\ (forall depth n,
        monitor_song_end W depth (repeat true n) sounding = Ret sounding).
Proof.
  intros W idle sounding.
  assert (Hi : state_switch idle = false) by reflexivity.
  assert (Hs : state_switch sounding = false) by (vm_compute; reflexivity).
  assert (Hci : forall busy, State.eqb (state idle) State.PLAYING && negb busy = false)
    by reflexivity.
  assert (Hcs : State.eqb (state sounding) State.PLAYING && negb true = false)
    by (vm_compute; reflexivity).
  split; [reflexivity|]. split; [reflexivity|].
  split; [vm_compute; reflexivity|]. split; [vm_compute; reflexivity|].
  split; [|split; [|split]]; intros.
  - now apply monitor_iteration_no_sleep.
  - now apply monitor_iteration_no_sleep.
  - now apply monitor_song_end_spins.
  - now apply monitor_song_end_spins.
Qed.

(** ** Claims C6 and C10: shuffle *)

Lemma dict_set_fresh k v (d : dict) :
  ~ In k (keys d) -> dict_set k v d = d ++ [(k, v)].
Proof.
  induction d as [|[k' v'] d IH]; simpl; intros Hin; [reflexivity|].
  destruct (String.eqb k' k) eqn:E.
  - apply String.eqb_eq in E. exfalso. apply Hin. now left.
  - f_equal. apply IH. intros H. apply Hin. now right.
Qed.

Lemma fold_dict_set pairs : forall acc : dict,
  NoDup (keys (acc ++ pairs)) ->
  fold_left (fun d kv => dict_set (fst kv) (snd kv) d) pairs acc = acc ++ pairs.
Proof.
  induction pairs as [|[k v] pairs IH]; intros acc Hnd; simpl.
  - now rewrite app_nil_r.
  - assert (Hfresh : ~ In k (keys acc)).
    { unfold keys in *. rewrite map_app in Hnd. simpl in Hnd.
      apply NoDup_remove_2 in Hnd. intros H. apply Hnd, in_or_app. now left. }
    rewrite (dict_set_fresh k v acc Hfresh).
    rewrite IH; rewrite <- app_assoc; [reflexivity | exact Hnd].
Qed.

(** [dict(pairs)] is [pairs] when no key comes twice; so
    [dict(list(d.items()))] is [d], order included. *)
Lemma dict_of_wf (d : dict) : dict_wf d = true -> dict_of d = d.
Proof.
  intros Hwf. unfold dict_of.
  apply (fold_dict_set d []). simpl. now apply nodupb_NoDup.
Qed.

Lemma dict_of_items (d : dict) : dict_wf d = true -> dict_of (items d) = d.
Proof. apply dict_of_wf. Qed.

Lemma remove_nth_Permutation {A} (d : A) (l : list A) : forall j,
  j < length l -> Permutation l (nth j l d :: remove_nth j l).
Proof.
  induction l as [|x l IH]; intros j Hj; simpl in Hj; [lia|].
  destruct j as [|j]; simpl.
  - reflexivity.
  - assert (Hlt : j < length l) by lia.
    rewrite (IH j Hlt) at 1. apply perm_swap.
Qed.

Lemma shuffle_draws_Permutation {A} k : forall draws (l : list A),
  Permutation l (fst (shuffle_draws k draws l)).
Proof.
  induction k as [|k IH]; intros draws l; [reflexivity|].
  destruct l as [|x l]; [reflexivity|].
  assert (Hj : hd 0 draws mod length (x :: l) < length (x :: l))
    by (apply Nat.mod_upper_bound; discriminate).
  change (shuffle_draws (S k) draws (x :: l))
    with (let j := hd 0 draws mod length (x :: l) in
          let (rest, draws') := shuffle_draws k (tl draws) (remove_nth j (x :: l)) in
          (nth j (x :: l) x :: rest, draws')).
  set (j := hd 0 draws mod length (x :: l)) in *. cbv zeta.
  specialize (IH (tl draws) (remove_nth j (x :: l))).
  destruct (shuffle_draws k (tl draws) (remove_nth j (x :: l))) as [rest draws'].
  cbn [fst] in *.
  rewrite (remove_nth_Permutation x (x :: l) j Hj) at 1.
  now apply perm_skip.
Qed.

(** The shuffled list is a permutation of the list. *)
Lemma random_shuffle_Permutation {A} draws (l : list A) :
  Permutation l (fst (random_shuffle draws l)).
Proof. apply shuffle_draws_Permutation. Qed.

Lemma dict_wf_Permutation (d d' : dict) :
  Permutation d d' -> dict_wf d = true -> dict_wf d' = true.
Proof.
  intros Hp Hwf. unfold dict_wf in *. apply nodupb_NoDup.
  apply nodupb_NoDup in Hwf.
  eapply Permutation_NoDup; [|exact Hwf]. unfold keys. now apply Permutation_map.
Qed.

(** Shuffle goes on: the displayed order is kept in [current_playlist]
    and a shuffled copy is displayed. *)
Lemma toggle_shuffle_on s :
  songs s <> [] -> shuffle s = false ->
  toggle_shuffle_state s
  = Ret (set_shuffle true
           (playlist_populate
              (playlist_clear
                 (set_songs (dict_of (fst (random_shuffle (rng s) (songs s))))
                    (set_rng (snd (random_shuffle (rng s) (songs s)))
                       (set_current_playlist (Some (songs s)) s)))))).
Proof.
  intros Hne Hsh. unfold toggle_shuffle_state.
  destruct (songs s) as [|x d] eqn:E; [contradiction|].
  rewrite Hsh. unfold items. cbv beta zeta. cbn [negb].
  change (rng (set_current_playlist (Some (x :: d)) s)) with (rng s).
  destruct (random_shuffle (rng s) (x :: d)) as [sh draws].
  cbn [fst snd bind].
  cbn [shuffle set_songs set_rng set_current_playlist playlist_clear
       playlist_populate emit].
  rewrite Hsh. reflexivity.
Qed.

(** Shuffle goes off: the order kept in [current_playlist] is displayed. *)
Lemma toggle_shuffle_off s l :
  songs s <> [] -> shuffle s = true -> current_playlist s = Some l ->
  toggle_shuffle_state s
  = Ret (set_shuffle false
           (playlist_populate (playlist_clear (set_songs (dict_of l) s)))).
Proof.
  intros Hne Hsh Hcur. unfold toggle_shuffle_state.
  destruct (songs s) as [|x d] eqn:E; [contradiction|].
  rewrite Hsh, Hcur. cbn [negb bind].
  cbn [shuffle set_songs playlist_clear playlist_populate emit].
  rewrite Hsh. reflexivity.
Qed.

(** C6.  On a player that shows at least one song and has shuffle off,
    [toggle_shuffle_state] twice in a row returns both times, first with
    shuffle on and a permutation of the songs displayed, then with
    shuffle off and the songs displayed exactly as before the first
    call. *)
Theorem C6_shuffle_round_trip s :
  songs s <> [] ->
  dict_wf (songs s) = true ->
  shuffle s = false ->
  exists s1 s2,
    toggle_shuffle_state s = Ret s1
    /\ shuffle s1 = true
    /\ Permutation (songs s) (songs s1)
    /\ toggle_shuffle_state s1 = Ret s2
    /\ shuffle s2 = false
    /\ songs s2 = songs s.
Proof.
  intros Hne Hwf Hsh.
  pose proof (random_shuffle_Permutation (rng s) (songs s)) as Hperm.
  set (sh := fst (random_shuffle (rng s) (songs s))) in *.
  assert (Hsh_wf : dict_wf sh = true) by (eapply dict_wf_Permutation; eassumption).
  assert (Hsh_ne : sh <> []).
  { intros E. rewrite E in Hperm. apply Permutation_sym, Permutation_nil in Hperm.
    contradiction. }
  eexists. eexists.
  split; [apply (toggle_shuffle_on s Hne Hsh)|].
  split; [reflexivity|].
  fold sh. cbn [songs set_shuffle playlist_populate playlist_clear emit set_songs].
  rewrite (dict_of_wf sh Hsh_wf).
  split; [exact Hperm|].
  split.
  - apply toggle_shuffle_off.
    + cbn [songs set_shuffle playlist_populate playlist_clear emit set_songs].
      exact Hsh_ne.
    + reflexivity.
    + reflexivity.
  - split; [reflexivity|].
    cbn [songs set_shuffle playlist_populate playlist_clear emit set_songs].
    apply (dict_of_wf (songs s) Hwf).
Qed.

(** A, B, C with the draws 2, 0, 5: C, A, B is displayed, then A, B, C. *)
Lemma C6_shuffle_round_trip_witness :
  let s := init abc [2; 0; 5] in
  songs s <> [] /\ dict_wf (songs s) = true /\ shuffle s = false
  /\ exists s1 s2,
      toggle_shuffle_state s = Ret s1
      /\ toggle_shuffle_state s1 = Ret s2
      /\ songs s2 = songs s.
Proof.
  intros s.
  assert (H1 : songs s <> []) by discriminate.
  assert (H2 : dict_wf (songs s) = true) by reflexivity.
  assert (H3 : shuffle s = false) by reflexivity.
  split; [exact H1|]. split; [exact H2|]. split; [exact H3|].
  destruct (C6_shuffle_round_trip s H1 H2 H3)
    as (s1 & s2 & Hon & _ & _ & Hoff & _ & Hsongs).
  exists s1, s2. split; [exact Hon|]. split; [exact Hoff | exact Hsongs].
Defined.

Example shuffle_abc :
  songs (final (toggle_shuffle_state (init abc [2; 0; 5])))
  = [("C", "c.mp3"); ("A", "a.mp3"); ("B", "b.mp3")].
Proof. vm_compute. reflexivity. Qed.

Ltac snapshot_frame :=
  unfold same_snapshot; simpl; intros;
  repeat match goal with H : _ /\ _ |- _ => destruct H end;
  try split; congruence.

Lemma same_snapshot_kept s s' :
  same_snapshot s s' -> snapshot_kept s -> snapshot_kept s'.
Proof. unfold same_snapshot, snapshot_kept. intros [-> ->]. auto. Qed.

Lemma toggle_shuffle_state_returns s :
  snapshot_kept s ->
  exists s', toggle_shuffle_state s = Ret s' /\ snapshot_kept s'.
Proof.
  intros Hkept.
  destruct (songs s) as [|x d] eqn:E.
  - exists s. split; [|assumption]. unfold toggle_shuffle_state. now rewrite E.
  - assert (Hne : songs s <> []) by (rewrite E; discriminate).
    destruct (shuffle s) eqn:Hsh.
    + destruct (current_playlist s) as [l|] eqn:Hcur;
        [|exfalso; now apply Hkept].
      eexists. split; [apply (toggle_shuffle_off s l Hne Hsh Hcur)|].
      intros H. discriminate H.
    + eexists. split; [apply (toggle_shuffle_on s Hne Hsh)|].
      intros _. discriminate.
Qed.

Lemma run_snapshot_kept W depth c s :
  snapshot_kept s -> snapshot_kept (final (run W depth c s)).
Proof.
  intros Hkept. destruct c; simpl run.
  - apply (same_snapshot_kept s); [|assumption].
    apply play_song_keeps; snapshot_frame.
  - apply (same_snapshot_kept s); [|assumption].
    apply play_from_playlist_keeps; snapshot_frame.
  - apply (same_snapshot_kept s); [|assumption].
    apply toggle_play_state_keeps; snapshot_frame.
  - exact Hkept.
  - apply (same_snapshot_kept s); [|assumption].
    apply next_song_keeps; snapshot_frame.
  - apply (same_snapshot_kept s); [|assumption].
    apply previous_song_keeps; snapshot_frame.
  - exact Hkept.
  - exact Hkept.
  - unfold change_loop_state.
    destruct (Loop.eqb (loop s) Loop.NONE); [exact Hkept|].
    destruct (Loop.eqb (loop s) Loop.ONE); exact Hkept.
  - destruct (toggle_shuffle_state_returns s Hkept) as (s' & -> & H). exact H.
  - destruct (monitor_thread s && running s); [|exact Hkept].
    assert (H : same_snapshot s (final (monitor_iteration W depth busy s)))
      by (apply monitor_iteration_keeps; snapshot_frame).
    apply (same_snapshot_kept s); [|assumption].
    destruct (monitor_iteration W depth busy s); exact H.
  - exact Hkept.
Qed.

(** C10.  In every state the player reaches from [__init__] by its
    commands, shuffle on implies that [current_playlist] holds the order
    to restore, and [toggle_shuffle_state] returns without raising. *)
Theorem C10_shuffle_has_snapshot W songs0 draws s :
  reachable W songs0 draws s ->
  (shuffle s = true -> current_playlist s <> None)
  /\ (exists s', toggle_shuffle_state s = Ret s').
Proof.
  intros Hreach.
  assert (Hkept : snapshot_kept s).
  { induction Hreach as [|s depth c Hreach IH].
    - intros H. discriminate H.
    - now apply run_snapshot_kept. }
  split; [exact Hkept|].
  destruct (toggle_shuffle_state_returns s Hkept) as (s' & Hrun & _).
  now exists s'.
Qed.

(** After one shuffle command on A, B, C the order A, B, C is kept. *)
Lemma C10_shuffle_has_snapshot_witness :
  let W := world_rejecting [] in
  let s := final (run W 3 CShuffle (init abc [2; 0; 5])) in
  reachable W abc [2; 0; 5] s
  /\ shuffle s = true
  /\ current_playlist s <> None.
Proof.
  intros W s.
  assert (Hreach : reachable W abc [2; 0; 5] s)
    by (apply reachable_step, reachable_init).
  assert (Hsh : shuffle s = true) by (vm_compute; reflexivity).
  split; [exact Hreach|]. split; [exact Hsh|].
  exact (proj1 (C10_shuffle_has_snapshot W abc [2; 0; 5] s Hreach) Hsh).
Defined.

(** ** Claim C9: the volume steps *)

Local Open Scope Q_scope.

Lemma Qlt_bool_spec x y : BoolSpec (x < y) (y <= x) (Qlt_bool x y).
Proof.
  unfold Qlt_bool. destruct (Qle_bool y x) eqn:E; simpl; constructor.
  - now apply Qle_bool_iff.
  - apply Qnot_le_lt. intros H. apply Qle_bool_iff in H. congruence.
Qed.

Section Volume.

Variable W : World.

(** The stored float of a real: rounding is monotone and leaves 0 and 1,
    which are floats, as they are. *)
Hypothesis fl_monotone : forall x y, x <= y -> fl W x <= fl W y.
Hypothesis fl_0 : fl W 0 == 0.
Hypothesis fl_1 : fl W 1 == 1.
Hypothesis step_nonneg : 0 <= VOLUME_STEP W.

Lemma increase_volume_value s :
  volume (increase_media_volume W s)
  = if Qlt_bool (fl W (volume s + VOLUME_STEP W)) 1
    then fl W (volume s + VOLUME_STEP W) else 1.
Proof. reflexivity. Qed.

Lemma decrease_volume_value s :
  volume (decrease_media_volume W s)
  = if Qlt_bool (VOLUME_STEP W) (volume s)
    then fl W (volume s - VOLUME_STEP W) else 0.
Proof. reflexivity. Qed.

Lemma increase_is_clamp s :
  0 <= volume s <= 1 ->
  volume (increase_media_volume W s)
  == clamp 0 1 (fl W (volume s + VOLUME_STEP W)).
Proof.
  intros [Hlo Hhi]. rewrite increase_volume_value. unfold clamp.
  assert (H0 : 0 <= fl W (volume s + VOLUME_STEP W)).
  { rewrite <- fl_0. apply fl_monotone. lra. }
  destruct (Qlt_bool_spec (fl W (volume s + VOLUME_STEP W)) 1);
    destruct (Qlt_bool_spec (fl W (volume s + VOLUME_STEP W)) 0);
    destruct (Qlt_bool_spec 1 (fl W (volume s + VOLUME_STEP W))); lra.
Qed.

Lemma decrease_is_clamp s :
  0 <= volume s <= 1 ->
  volume (decrease_media_volume W s)
  == clamp 0 1 (fl W (volume s - VOLUME_STEP W)).
Proof.
  intros [Hlo Hhi]. rewrite decrease_volume_value. unfold clamp.
  assert (H1 : fl W (volume s - VOLUME_STEP W) <= 1).
  { rewrite <- fl_1. apply fl_monotone. lra. }
  destruct (Qlt_bool_spec (VOLUME_STEP W) (volume s)) as [Hgt|Hle].
  - assert (H0 : 0 <= fl W (volume s - VOLUME_STEP W)).
    { rewrite <- fl_0. apply fl_monotone. lra. }
    destruct (Qlt_bool_spec (fl W (volume s - VOLUME_STEP W)) 0);
      destruct (Qlt_bool_spec 1 (fl W (volume s - VOLUME_STEP W))); lra.
  - assert (H0 : fl W (volume s - VOLUME_STEP W) <= 0).
    { rewrite <- fl_0. apply fl_monotone. lra. }
    destruct (Qlt_bool_spec (fl W (volume s - VOLUME_STEP W)) 0);
      destruct (Qlt_bool_spec 1 (fl W (volume s - VOLUME_STEP W))); lra.
Qed.

Lemma clamp_range x : 0 <= clamp 0 1 x <= 1.
Proof.
  unfold clamp.
  destruct (Qlt_bool_spec x 0); destruct (Qlt_bool_spec 1 x); lra.
Qed.

Lemma increase_at_top s :
  1 <= volume s -> volume (increase_media_volume W s) = 1.
Proof.
  intros H. rewrite increase_volume_value.
  assert (H1 : 1 <= fl W (volume s + VOLUME_STEP W)).
  { rewrite <- fl_1. apply fl_monotone. lra. }
  destruct (Qlt_bool_spec (fl W (volume s + VOLUME_STEP W)) 1); [lra | reflexivity].
Qed.

Lemma decrease_at_bottom s :
  volume s <= 0 -> volume (decrease_media_volume W s) = 0.
Proof.
  intros H. rewrite decrease_volume_value.
  destruct (Qlt_bool_spec (VOLUME_STEP W) (volume s)); [lra | reflexivity].
Qed.

Lemma increase_repeated_at_top n : forall s,
  volume s == 1 -> volume (Nat.iter n (increase_media_volume W) s) == 1.
Proof.
  induction n as [|n IH]; intros s H; simpl Nat.iter; [exact H|].
  rewrite increase_at_top; [reflexivity|].
  rewrite (IH s H). lra.
Qed.

Lemma decrease_repeated_at_bottom n : forall s,
  volume s == 0 -> volume (Nat.iter n (decrease_media_volume W) s) == 0.
Proof.
  induction n as [|n IH]; intros s H; simpl Nat.iter; [exact H|].
  rewrite decrease_at_bottom; [reflexivity|].
  rewrite (IH s H). lra.
Qed.

End Volume.

(** C9.  The step is not negative and the stored float of a real is its
    monotone rounding, exact at 0 and 1.  From a volume in [0, 1], one
    increase leaves clamp(volume + step, 0, 1) and one decrease leaves
    clamp(volume - step, 0, 1), both in [0, 1]; any number of increases
    from 1 leave 1 and any number of decreases from 0 leave 0. *)
Theorem C9_volume_steps_clamp W s :
  (forall x y, x <= y -> fl W x <= fl W y) ->
  fl W 0 == 0 ->
  fl W 1 == 1 ->
  0 <= VOLUME_STEP W ->
  0 <= volume s <= 1 ->
  volume (increase_media_volume W s)
  == clamp 0 1 (fl W (volume s + VOLUME_STEP W))
  /\ volume (decrease_media_volume W s)
     == clamp 0 1 (fl W (volume s - VOLUME_STEP W))
  /\ 0 <= volume (increase_media_volume W s) <= 1
  /\ 0 <= volume (decrease_media_volume W s) <= 1
  /\ (volume s == 1 ->
      forall n, volume (Nat.iter n (increase_media_volume W) s) == 1)
  /\ (volume s == 0 ->
      forall n, volume (Nat.iter n (decrease_media_volume W) s) == 0).
Proof.
  intros Hmono H0 H1 Hstep Hrange.
  pose proof (increase_is_clamp W Hmono H0 Hstep s Hrange) as Hinc.
  pose proof (decrease_is_clamp W Hmono H0 H1 Hstep s Hrange) as Hdec.
  split; [exact Hinc|]. split; [exact Hdec|].
  split; [rewrite Hinc; apply clamp_range|].
  split; [rewrite Hdec; apply clamp_range|].
  split.
  - intros Htop n. now apply increase_repeated_at_top.
  - intros Hbot n. now apply decrease_repeated_at_bottom.
Qed.

Lemma round_down_monotone x y : x <= y -> round_down x <= round_down y.
Proof.
  intros H. unfold round_down, Qdiv.
  apply Qmult_le_compat_r; [|discriminate].
  rewrite <- Zle_Qle. apply Qfloor_resp_le.
  apply Qmult_le_compat_r; [exact H | discriminate].
Qed.

(** From the initial volume 0.5 with step 0.05 and [round_down]. *)
Lemma C9_volume_steps_clamp_witness :
  let W := world_round_down in
  let s := init [] [] in
  ((forall x y, x <= y -> fl W x <= fl W y)
   /\ fl W 0 == 0 /\ fl W 1 == 1 /\ 0 <= VOLUME_STEP W /\ 0 <= volume s <= 1)
  /\ volume (increase_media_volume W s)
     == clamp 0 1 (fl W (volume s + VOLUME_STEP W))
  /\ volume (decrease_media_volume W s)
     == clamp 0 1 (fl W (volume s - VOLUME_STEP W)).
Proof.
  intros W s.
  assert (Hmono : forall x y, x <= y -> fl W x <= fl W y)
    by exact round_down_monotone.
  assert (H0 : fl W 0 == 0) by (vm_compute; reflexivity).
  assert (H1 : fl W 1 == 1) by (vm_compute; reflexivity).
  assert (Hstep : 0 <= VOLUME_STEP W) by (vm_compute; discriminate).
  assert (Hrange : 0 <= volume s <= 1) by (split; vm_compute; discriminate).
  split; [repeat split; try assumption; apply Hrange|].
  destruct (C9_volume_steps_clamp W s Hmono H0 H1 Hstep Hrange)
    as (Hinc & Hdec & _).
  split; assumption.
Defined.

Example increase_from_half :
  volume (increase_media_volume world_round_down (init [] [])) = 563 # 1024.
Proof. vm_compute. reflexivity. Qed.

Example decrease_below_step :
  volume (decrease_media_volume (world_rejecting [])
            (set_volume (1 # 50) (init [] []))) = 0.
Proof. vm_compute. reflexivity. Qed.

Local Close Scope Q_scope.

(** ** What the methods ensure

    A property [Q] of outcomes that holds of a plain return, of the stop
    and of a raise from attributes that satisfy [P], and of the
    [play_song] that is called, holds of [next_song] and [previous_song]
    from attributes that satisfy [P]. *)

Section Ensures.

Variable P : MediaPlayer -> Prop.
Variable Q : Outcome -> Prop.
Variable ps : option string -> bool -> MediaPlayer -> Outcome.

Hypothesis Q_ret : forall s, P s -> Q (Ret s).
Hypothesis Q_raise : forall e s, P s -> Q (Raise e s).
Hypothesis Q_stop : forall s, P s -> Q (Ret (stopped s)).
Hypothesis P_select : forall v s, P s -> P (set_current_playlist_media v s).
Hypothesis Q_ps : forall media fp s, P s -> Q (ps media fp s).

Lemma select_and_play_ensures titles j s :
  P s -> Q (select_and_play ps titles j s).
Proof.
  intros HP. unfold select_and_play.
  destruct (nth_error titles j) as [t|]; [|now apply Q_raise].
  destruct (dict_get t (songs s)) as [p|]; [|now apply Q_raise].
  apply Q_ps. now apply P_select.
Qed.

Lemma next_song_with_ensures s : P s -> Q (next_song_with ps s).
Proof.
  intros HP. unfold next_song_with.
  destruct (falsy (playing_song s)); [now apply Q_ret|].
  destruct (negb (playing_from_playlist s) && Loop.eqb (loop s) Loop.NONE);
    [now apply Q_stop|].
  destruct (playing_from_playlist s && negb (Loop.eqb (loop s) Loop.ONE));
    [|now apply Q_ps].
  destruct (current_playlist_media s) as [[t p]|]; [|now apply Q_raise].
  destruct (index t (keys (songs s))) as [i|]; [|now apply Q_raise].
  destruct (i + 1 <? length (keys (songs s)));
    [now apply select_and_play_ensures|].
  destruct (Loop.eqb (loop s) Loop.ALL); [now apply select_and_play_ensures|].
  now apply Q_stop.
Qed.

Lemma previous_song_with_ensures s : P s -> Q (previous_song_with ps s).
Proof.
  intros HP. unfold previous_song_with.
  destruct (negb (playing_from_playlist s) && Loop.eqb (loop s) Loop.NONE);
    [now apply Q_stop|].
  destruct (playing_from_playlist s && negb (Loop.eqb (loop s) Loop.ONE));
    [|now apply Q_ps].
  destruct (current_playlist_media s) as [[t p]|]; [|now apply Q_raise].
  destruct (index t (keys (songs s))) as [i|]; [|now apply Q_raise].
  destruct (0 <? i); [now apply select_and_play_ensures|].
  destruct (Loop.eqb (loop s) Loop.ALL); [now apply select_and_play_ensures|].
  now apply Q_stop.
Qed.

End Ensures.

(** The outcome of [play_song] on a non-empty media, by what the mixer
    answers. *)
Lemma play_song_cases W depth m from_playlist s :
  m <> "" ->
  let s1 := set_playing_from_playlist from_playlist (set_state_switch true s) in
  play_song W (S depth) (Some m) from_playlist s
  = if play W (trace s) m then
      let s2 := set_info (get_metadata W m)
                  (set_playing_song (Some m)
                     (set_state State.PLAYING (emit (Play m true) s1))) in
      Ret (set_state_switch false
             (if negb (monitor_thread s2) then set_monitor_thread true s2 else s2))
    else
      next_song W depth (emit (Play m false) s1) >>= fun s' =>
      Ret (set_state_switch false
             (emit (Notify "Unable to play the media file.") s')).
Proof.
  intros Hm s1. subst s1. cbn -[falsy next_song_with].
  rewrite (falsy_Some _ Hm).
  destruct (play W (trace s) m); reflexivity.
Qed.

Lemma play_song_falsy W depth media from_playlist s :
  falsy media = true ->
  play_song W (S depth) media from_playlist s = Ret s.
Proof.
  intros H. destruct media as [m|]; [|reflexivity].
  cbn -[falsy next_song_with]. now rewrite H.
Qed.

Lemma falsy_false_Some media :
  falsy media = false -> exists m, media = Some m /\ m <> "".
Proof.
  destruct media as [m|]; simpl; [|discriminate].
  intros H. exists m. split; [reflexivity|]. now apply String.eqb_neq.
Qed.

Lemma toggle_shuffle_state_same_playback s :
  same_playback s (final (toggle_shuffle_state s)).
Proof.
  destruct (songs s) as [|x d] eqn:E.
  - unfold toggle_shuffle_state. rewrite E. repeat split.
  - assert (Hne : songs s <> []) by (rewrite E; discriminate).
    destruct (shuffle s) eqn:Hsh.
    + destruct (current_playlist s) as [l|] eqn:Hcur.
      * rewrite (toggle_shuffle_off s l Hne Hsh Hcur). repeat split.
      * unfold toggle_shuffle_state. rewrite E, Hsh, Hcur. repeat split.
    + rewrite (toggle_shuffle_on s Hne Hsh). repeat split.
Qed.

(** ** A loaded song whenever the player is not STOPPED *)

Lemma play_song_song_loaded W depth : forall media from_playlist s,
  song_loaded s -> song_loaded (final (play_song W depth media from_playlist s)).
Proof.
  induction depth as [|depth IH]; intros media fp s HP; [exact HP|].
  destruct (falsy media) eqn:Hf.
  - now rewrite (play_song_falsy W depth media fp s Hf).
  - destruct (falsy_false_Some media Hf) as (m & -> & Hm).
    rewrite (play_song_cases W depth m fp s Hm). cbv zeta.
    destruct (play W (trace s) m).
    + intros _. destruct (negb (monitor_thread s)) eqn:E;
        cbn -[falsy]; rewrite E; cbn -[falsy]; now apply falsy_Some.
    + pose proof (next_song_with_ensures song_loaded
                    (fun o => song_loaded (final o)) (play_song W depth)
                    (fun s H => H) (fun e s H => H)
                    (fun s _ (H : state (stopped s) <> State.STOPPED) =>
                       False_ind _ (H eq_refl))
                    (fun v s H => H)
                    (fun media fp s H => IH media fp s H)) as Hnext.
      specialize (Hnext (emit (Play m false)
                           (set_playing_from_playlist fp (set_state_switch true s))) HP).
      unfold next_song.
      destruct (next_song_with _ _) as [s2|e s2]; simpl in *; exact Hnext.
Qed.

Lemma next_song_song_loaded W depth s :
  song_loaded s -> song_loaded (final (next_song W depth s)).
Proof.
  apply (next_song_with_ensures song_loaded (fun o => song_loaded (final o))
           (play_song W depth)); auto.
  - intros s0 _ H. exfalso. now apply H.
  - intros. now apply play_song_song_loaded.
Qed.

Lemma previous_song_song_loaded W depth s :
  song_loaded s -> song_loaded (final (previous_song W depth s)).
Proof.
  apply (previous_song_with_ensures song_loaded (fun o => song_loaded (final o))
           (play_song W depth)); auto.
  - intros s0 _ H. exfalso. now apply H.
  - intros. now apply play_song_song_loaded.
Qed.

Lemma handle_song_end_song_loaded W depth s :
  song_loaded s -> song_loaded (final (handle_song_end W depth s)).
Proof.
  intros HP. unfold handle_song_end.
  assert (HP' : song_loaded (emit SongEnd s)) by exact HP.
  destruct (State.eqb (state (emit SongEnd s)) State.PAUSED); [exact HP'|].
  destruct (negb (playing_from_playlist (emit SongEnd s))).
  - destruct (negb (Loop.eqb (loop (emit SongEnd s)) Loop.NONE)).
    + now apply play_song_song_loaded.
    + intros H. exfalso. now apply H.
  - destruct (songs (emit SongEnd s)).
    + intros H. exfalso. now apply H.
    + now apply next_song_song_loaded.
Qed.

Lemma run_song_loaded W depth c s :
  song_loaded s -> song_loaded (final (run W depth c s)).
Proof.
  intros HP. destruct c; simpl run.
  - now apply play_song_song_loaded.
  - unfold play_from_playlist. now apply play_song_song_loaded.
  - unfold toggle_play_state.
    destruct (State.eqb (state s) State.PLAYING) eqn:E1.
    { apply state_eqb_eq in E1. intros _. apply HP. rewrite E1. discriminate. }
    destruct (State.eqb (state s) State.PAUSED) eqn:E2.
    { apply state_eqb_eq in E2. intros _. apply HP. rewrite E2. discriminate. }
    destruct (State.eqb (state s) State.STOPPED
              && match playing_song s with Some _ => true | None => false end);
      [now apply play_song_song_loaded | exact HP].
  - exact HP.
  - now apply next_song_song_loaded.
  - now apply previous_song_song_loaded.
  - exact HP.
  - exact HP.
  - unfold change_loop_state.
    destruct (Loop.eqb (loop s) Loop.NONE); [exact HP|].
    destruct (Loop.eqb (loop s) Loop.ONE); exact HP.
  - destruct (toggle_shuffle_state_same_playback s) as (Hst & Hsong & _).
    unfold song_loaded. rewrite Hst, Hsong. exact HP.
  - destruct (monitor_thread s && running s); [|exact HP].
    assert (H : song_loaded (final (monitor_iteration W depth busy s))).
    { unfold monitor_iteration.
      destruct (state_switch s); [exact HP|].
      destruct (State.eqb (state s) State.PLAYING && negb busy); [|exact HP].
      pose proof (handle_song_end_song_loaded W depth s HP) as H.
      destruct (handle_song_end W depth s); exact H. }
    destruct (monitor_iteration W depth busy s); exact H.
  - exact HP.
Qed.

(** X1.  In every state the player reaches from [__init__] by its
    commands, returning or raising, a state other than STOPPED comes
    with a loaded song: [playing_song] is neither None nor empty while
    the player is PLAYING or PAUSED. *)
Theorem X1_song_loaded_unless_stopped W songs0 draws s :
  reachable W songs0 draws s ->
  state s <> State.STOPPED ->
  exists m, playing_song s = Some m /\ m <> "".
Proof.
  intros Hreach.
  assert (HP : song_loaded s).
  { induction Hreach as [|s depth c Hreach IH].
    - intros H. exfalso. now apply H.
    - now apply run_song_loaded. }
  intros Hst. apply falsy_false_Some. now apply HP.
Qed.

(** b.mp3 plays from the playlist and is then paused. *)
Lemma X1_song_loaded_unless_stopped_witness :
  let W := world_rejecting [] in
  let s := final (run W 3 CTogglePlay
                    (final (run W 3 (CPlayFromPlaylist ("B", "b.mp3")) (init abc [])))) in
  reachable W abc [] s
  /\ state s = State.PAUSED
  /\ exists m, playing_song s = Some m /\ m <> "".
Proof.
  intros W s.
  assert (Hreach : reachable W abc [] s)
    by (apply reachable_step, reachable_step, reachable_init).
  assert (Hst : state s <> State.STOPPED) by (vm_compute; discriminate).
  split; [exact Hreach|]. split; [vm_compute; reflexivity|].
  exact (X1_song_loaded_unless_stopped W abc [] s Hreach Hst).
Defined.

(** ** The switch flag after an exception and after a return *)

Lemma play_song_raise_switch W depth : forall media from_playlist s,
  state_switch s = true ->
  on_raise (fun s' => state_switch s' = true)
    (play_song W depth media from_playlist s).
Proof.
  induction depth as [|depth IH]; intros media fp s HP; [exact HP|].
  destruct (falsy media) eqn:Hf.
  - now rewrite (play_song_falsy W depth media fp s Hf).
  - destruct (falsy_false_Some media Hf) as (m & -> & Hm).
    rewrite (play_song_cases W depth m fp s Hm). cbv zeta.
    destruct (play W (trace s) m); [exact I|].
    pose proof (next_song_with_ensures (fun s => state_switch s = true)
                  (on_raise (fun s' => state_switch s' = true))
                  (play_song W depth)
                  (fun s _ => I) (fun e s H => H) (fun s _ => I)
                  (fun v s H => H) IH) as Hnext.
    specialize (Hnext (emit (Play m false)
                         (set_playing_from_playlist fp (set_state_switch true s)))
                  eq_refl).
    unfold next_song.
    destruct (next_song_with _ _) as [s2|e s2]; simpl in *; [exact I | exact Hnext].
Qed.

(** While the switch flag is up and no command writes it, the monitor
    loop only sleeps, once a turn, whatever the mixer answers. *)
Lemma monitor_song_end_sleeps W depth (answers : list bool) : forall s,
  state_switch s = true ->
  monitor_song_end W depth answers s
  = Ret (Nat.iter (if running s then length answers else 0)
           (emit (Sleep (1 # 2))) s).
Proof.
  induction answers as [|b answers IH]; intros s Hsw.
  - simpl. now destruct (running s).
  - cbn [monitor_song_end]. destruct (running s) eqn:Hrun; [|reflexivity].
    unfold monitor_iteration. rewrite Hsw. cbn [bind].
    rewrite (IH (emit (Sleep (1 # 2)) s) Hsw).
    change (running (emit (Sleep (1 # 2)) s)) with (running s). rewrite Hrun.
    cbn [length]. now rewrite Nat.iter_succ_r.
Qed.

(** X2.  When [play_song] on a non-empty media is left by an exception,
    the mixer had rejected the media and [state_switch] is still true in
    the attributes left behind.  From those attributes, with no command
    in between, the monitor loop only sleeps: one turn does, and any
    number of turns do, one sleep a turn, whatever the mixer answers. *)
Theorem X2_play_song_raise_keeps_state_switch W depth m from_playlist s e s' :
  m <> "" ->
  play_song W (S depth) (Some m) from_playlist s = Raise e s' ->
  play W (trace s) m = false
  /\ state_switch s' = true
  /\ (forall d busy, monitor_iteration W d busy s' = Ret (emit (Sleep (1 # 2)) s'))
  /\ (forall d (answers : list bool),
        monitor_song_end W d answers s'
        = Ret (Nat.iter (if running s' then length answers else 0)
                 (emit (Sleep (1 # 2))) s')).
Proof.
  intros Hm Hrun.
  assert (Hrej : play W (trace s) m = false).
  { rewrite (play_song_cases W depth m from_playlist s Hm) in Hrun. cbv zeta in Hrun.
    destruct (play W (trace s) m); [discriminate | reflexivity]. }
  assert (Hsw : state_switch s' = true).
  { rewrite (play_song_cases W depth m from_playlist s Hm) in Hrun. cbv zeta in Hrun.
    rewrite Hrej in Hrun.
    pose proof (next_song_with_ensures (fun s => state_switch s = true)
                  (on_raise (fun s' => state_switch s' = true))
                  (play_song W depth)
                  (fun s _ => I) (fun e s H => H) (fun s _ => I)
                  (fun v s H => H) (play_song_raise_switch W depth)
                  (emit (Play m false)
                     (set_playing_from_playlist from_playlist
                        (set_state_switch true s)))
                  eq_refl) as Hnext.
    unfold next_song in Hrun.
    destruct (next_song_with _ _) as [s2|e2 s2]; simpl in *; [discriminate|].
    injection Hrun as _ <-. exact Hnext. }
  split; [exact Hrej|]. split; [exact Hsw|]. split.
  - intros d busy. unfold monitor_iteration. now rewrite Hsw.
  - intros d answers. now apply monitor_song_end_sleeps.
Qed.

(** B plays from the playlist, the playlist is emptied, and c.mp3, which
    the mixer rejects, is asked for: ValueError, with the flag up; three
    turns of the monitor loop then sleep three times. *)
Lemma X2_play_song_raise_keeps_state_switch_witness :
  let W := world_rejecting ["c.mp3"] in
  let s := set_songs [] (playing_entry W Loop.NONE ("B", "b.mp3")) in
  exists s',
    "c.mp3" <> ""
    /\ play_song W 3 (Some "c.mp3") true s = Raise ValueError s'
    /\ state_switch s' = true
    /\ monitor_song_end W 3 [false; true; false] s'
       = Ret (Nat.iter (if running s' then 3 else 0) (emit (Sleep (1 # 2))) s').
Proof.
  intros W s.
  assert (Hm : "c.mp3" <> "") by discriminate.
  eexists. split; [exact Hm|].
  assert (Hrun : play_song W 3 (Some "c.mp3") true s
                 = Raise ValueError (final (play_song W 3 (Some "c.mp3") true s)))
    by (vm_compute; reflexivity).
  split; [exact Hrun|].
  destruct (X2_play_song_raise_keeps_state_switch W 2 "c.mp3" true s
              ValueError _ Hm Hrun) as (_ & Hsw & _ & Hloop).
  split; [exact Hsw | exact (Hloop 3 [false; true; false])].
Defined.

Lemma play_song_return_switch W depth media from_playlist s :
  state_switch s = false ->
  on_return (fun s' => state_switch s' = false)
    (play_song W depth media from_playlist s).
Proof.
  intros HP. destruct depth as [|depth]; [exact I|].
  destruct (falsy media) eqn:Hf.
  - now rewrite (play_song_falsy W depth media from_playlist s Hf).
  - destruct (falsy_false_Some media Hf) as (m & -> & Hm).
    destruct (play_song W (S depth) (Some m) from_playlist s) as [s'|e s'] eqn:E;
      [|exact I].
    exact (play_song_returns_switch_off W (S depth) m from_playlist s s' Hm E).
Qed.

Lemma next_song_return_switch W depth s :
  state_switch s = false ->
  on_return (fun s' => state_switch s' = false) (next_song W depth s).
Proof.
  apply (next_song_with_ensures (fun s => state_switch s = false)
           (on_return (fun s' => state_switch s' = false)) (play_song W depth));
    simpl; auto.
  intros. now apply play_song_return_switch.
Qed.

Lemma previous_song_return_switch W depth s :
  state_switch s = false ->
  on_return (fun s' => state_switch s' = false) (previous_song W depth s).
Proof.
  apply (previous_song_with_ensures (fun s => state_switch s = false)
           (on_return (fun s' => state_switch s' = false)) (play_song W depth));
    simpl; auto.
  intros. now apply play_song_return_switch.
Qed.

Lemma handle_song_end_return_switch W depth s :
  state_switch s = false ->
  on_return (fun s' => state_switch s' = false) (handle_song_end W depth s).
Proof.
  intros HP. unfold handle_song_end.
  assert (HP' : state_switch (emit SongEnd s) = false) by exact HP.
  destruct (State.eqb (state (emit SongEnd s)) State.PAUSED); [exact HP'|].
  destruct (negb (playing_from_playlist (emit SongEnd s))).
  - destruct (negb (Loop.eqb (loop (emit SongEnd s)) Loop.NONE)).
    + now apply play_song_return_switch.
    + exact HP.
  - destruct (songs (emit SongEnd s)).
    + exact HP.
    + now apply next_song_return_switch.
Qed.

(** X3.  A command that starts with [state_switch] false and returns
    leaves [state_switch] false: between commands that return, the
    monitor loop is never held off. *)
Theorem X3_return_leaves_state_switch_off W depth c s s' :
  state_switch s = false ->
  run W depth c s = Ret s' ->
  state_switch s' = false.
Proof.
  intros HP. destruct c; simpl run.
  - intros E. pose proof (play_song_return_switch W depth media from_playlist s HP) as H.
    now rewrite E in H.
  - intros E. unfold play_from_playlist in E.
    pose proof (play_song_return_switch W depth (Some (snd media)) true
                  (set_current_playlist_media (Some media) s) HP) as H.
    now rewrite E in H.
  - unfold toggle_play_state.
    destruct (State.eqb (state s) State.PLAYING).
    { intros E. injection E as <-. exact HP. }
    destruct (State.eqb (state s) State.PAUSED).
    { intros E. injection E as <-. exact HP. }
    destruct (State.eqb (state s) State.STOPPED
              && match playing_song s with Some _ => true | None => false end).
    + intros E.
      pose proof (play_song_return_switch W depth (playing_song s)
                    (playing_from_playlist s) s HP) as H.
      now rewrite E in H.
    + intros E. injection E as <-. exact HP.
  - intros E. injection E as <-. exact HP.
  - intros E. pose proof (next_song_return_switch W depth s HP) as H.
    now rewrite E in H.
  - intros E. pose proof (previous_song_return_switch W depth s HP) as H.
    now rewrite E in H.
  - intros E. injection E as <-. exact HP.
  - intros E. injection E as <-. exact HP.
  - intros E. injection E as <-. unfold change_loop_state.
    destruct (Loop.eqb (loop s) Loop.NONE); [exact HP|].
    destruct (Loop.eqb (loop s) Loop.ONE); exact HP.
  - intros E. destruct (toggle_shuffle_state_same_playback s) as (_ & _ & _ & Hsw).
    rewrite E in Hsw. simpl in Hsw. now rewrite Hsw.
  - destruct (monitor_thread s && running s).
    + unfold monitor_iteration. rewrite HP.
      destruct (State.eqb (state s) State.PLAYING && negb busy).
      * pose proof (handle_song_end_return_switch W depth s HP) as H.
        destruct (handle_song_end W depth s) as [s1|e s1]; simpl;
          [|discriminate].
        intros E. injection E as <-. exact H.
      * intros E. injection E as <-. exact HP.
    + intros E. injection E as <-. exact HP.
  - intros E. injection E as <-. exact HP.
Qed.

(** The next command while A plays under ALL, b.mp3 rejected: C plays. *)
Lemma X3_return_leaves_state_switch_off_witness :
  let W := world_rejecting ["b.mp3"] in
  let s := playing_entry W Loop.ALL ("A", "a.mp3") in
  exists s',
    state_switch s = false
    /\ run W 3 CNextSong s = Ret s'
    /\ state_switch s' = false.
Proof.
  intros W s.
  assert (HP : state_switch s = false) by (vm_compute; reflexivity).
  assert (Hrun : run W 3 CNextSong s = Ret (final (run W 3 CNextSong s)))
    by (vm_compute; reflexivity).
  eexists. split; [exact HP|]. split; [exact Hrun|].
  exact (X3_return_leaves_state_switch_off W 3 CNextSong s _ HP Hrun).
Defined.

(** ** The volume in every reachable state *)

Lemma run_volume_in_range W depth c s :
  (forall x y, (x <= y)%Q -> (fl W x <= fl W y)%Q) ->
  (fl W 0 == 0)%Q -> (fl W 1 == 1)%Q -> (0 <= VOLUME_STEP W)%Q ->
  (0 <= volume s <= 1)%Q ->
  (0 <= volume (final (run W depth c s)) <= 1)%Q.
Proof.
  intros Hmono H0 H1 Hstep HP.
  assert (Hkeep : forall f, keeps (fun s s' => volume s' = volume s) f ->
                            (0 <= volume (final (f s)) <= 1)%Q).
  { intros f Hf. now rewrite (Hf s). }
  destruct c; simpl run.
  - apply Hkeep. apply play_song_keeps; simpl; congruence.
  - apply Hkeep. apply play_from_playlist_keeps; simpl; congruence.
  - apply Hkeep. apply toggle_play_state_keeps; simpl; congruence.
  - exact HP.
  - apply Hkeep. apply next_song_keeps; simpl; congruence.
  - apply Hkeep. apply previous_song_keeps; simpl; congruence.
  - simpl final. rewrite (increase_is_clamp W Hmono H0 Hstep s HP).
    apply clamp_range.
  - simpl final. rewrite (decrease_is_clamp W Hmono H0 H1 Hstep s HP).
    apply clamp_range.
  - unfold change_loop_state.
    destruct (Loop.eqb (loop s) Loop.NONE); [exact HP|].
    destruct (Loop.eqb (loop s) Loop.ONE); exact HP.
  - destruct (toggle_shuffle_state_same_playback s) as (_ & _ & Hv & _).
    now rewrite Hv.
  - destruct (monitor_thread s && running s); [|exact HP].
    assert (H : volume (final (monitor_iteration W depth busy s)) = volume s)
      by (apply monitor_iteration_keeps; simpl; congruence).
    destruct (monitor_iteration W depth busy s); simpl in *; now rewrite H.
  - exact HP.
Qed.

(** X4.  The step is not negative and the stored float of a real is its
    monotone rounding, exact at 0 and 1.  Then in every state the player
    reaches from [__init__] by its commands the volume is in [0, 1]. *)
Theorem X4_volume_stays_in_range W songs0 draws s :
  (forall x y, (x <= y)%Q -> (fl W x <= fl W y)%Q) ->
  (fl W 0 == 0)%Q ->
  (fl W 1 == 1)%Q ->
  (0 <= VOLUME_STEP W)%Q ->
  reachable W songs0 draws s ->
  (0 <= volume s <= 1)%Q.
Proof.
  intros Hmono H0 H1 Hstep Hreach.
  induction Hreach as [|s depth c Hreach IH].
  - simpl. split; discriminate.
  - now apply run_volume_in_range.
Qed.

(** Twelve increases from 0.5 by 0.05, rounded down: the volume is 1. *)
Lemma X4_volume_stays_in_range_witness :
  let W := world_round_down in
  let s := Nat.iter 12 (fun s => final (run W 1 CIncreaseVolume s)) (init [] []) in
  reachable W [] [] s
  /\ (volume s == 1)%Q
  /\ (0 <= volume s <= 1)%Q.
Proof.
  intros W s.
  assert (Hreach : reachable W [] [] s)
    by (repeat apply reachable_step; apply reachable_init).
  split; [exact Hreach|]. split; [vm_compute; reflexivity|].
  apply (X4_volume_stays_in_range W [] [] s).
  - exact round_down_monotone.
  - vm_compute; reflexivity.
  - vm_compute; reflexivity.
  - vm_compute; discriminate.
  - exact Hreach.
Defined.

(** ** The loop mode *)

Lemma change_loop_state_thrice s :
  change_loop_state (change_loop_state (change_loop_state s)) = s.
Proof. destruct s as [? ? ? [] ? ? ? ? ? ? ? ? ? ? ?]; reflexivity. Qed.

(** X5.  [change_loop_state] goes from NONE to ONE, from ONE to ALL and
    from ALL to NONE and writes nothing else: three calls in a row give
    back the player as it was, one or two calls never do, and so [n + 3]
    calls do what [n] calls do. *)
Theorem X5_loop_cycles_with_period_three s :
  (loop s = Loop.NONE -> loop (change_loop_state s) = Loop.ONE)
  /\ (loop s = Loop.ONE -> loop (change_loop_state s) = Loop.ALL)
  /\ (loop s = Loop.ALL -> loop (change_loop_state s) = Loop.NONE)
  /\ change_loop_state s = set_loop (loop (change_loop_state s)) s
  /\ loop (change_loop_state s) <> loop s
  /\ loop (change_loop_state (change_loop_state s)) <> loop s
  /\ (forall n, Nat.iter (n + 3) change_loop_state s = Nat.iter n change_loop_state s).
Proof.
  repeat split.
  - intros H. unfold change_loop_state. now rewrite H.
  - intros H. unfold change_loop_state. now rewrite H.
  - intros H. unfold change_loop_state. now rewrite H.
  - unfold change_loop_state. destruct (loop s); reflexivity.
  - unfold change_loop_state. destruct (loop s) eqn:E; simpl; discriminate.
  - unfold change_loop_state. destruct (loop s) eqn:E; simpl; discriminate.
  - intros n. rewrite Nat.iter_add. simpl Nat.iter at 2.
    now rewrite change_loop_state_thrice.
Qed.

(** A fresh player: NONE, then ONE, ALL and NONE again. *)
Lemma X5_loop_cycles_with_period_three_witness :
  let s := init [] [] in
  loop s = Loop.NONE
  /\ loop (change_loop_state s) = Loop.ONE
  /\ Nat.iter (0 + 3) change_loop_state s = s.
Proof.
  intros s.
  assert (H : loop s = Loop.NONE) by reflexivity.
  destruct (X5_loop_cycles_with_period_three s) as (H1 & _ & _ & _ & _ & _ & H7).
  split; [exact H|]. split; [exact (H1 H) | exact (H7 0)].
Defined.

(** ** Pause and resume *)

(** X6.  On a PLAYING player [toggle_play_state] pauses and a second call
    resumes; on a PAUSED player it resumes and a second call pauses.
    Both calls return at any recursion limit, and after the two the
    attributes are the ones before: only the pause and the resume went to
    the mixer, and no file was given to it. *)
Theorem X6_pause_resume_round_trip W depth s :
  (state s = State.PLAYING ->
   toggle_play_state W depth s = Ret (set_state State.PAUSED (emit Pause s))
   /\ toggle_play_state W depth (set_state State.PAUSED (emit Pause s))
      = Ret (emit Unpause (emit Pause s)))
  /\ (state s = State.PAUSED ->
      toggle_play_state W depth s = Ret (set_state State.PLAYING (emit Unpause s))
      /\ toggle_play_state W depth (set_state State.PLAYING (emit Unpause s))
         = Ret (emit Pause (emit Unpause s))).
Proof.
  split; intros H; split.
  - unfold toggle_play_state. now rewrite H.
  - destruct s; simpl in H; subst. reflexivity.
  - unfold toggle_play_state. now rewrite H.
  - destruct s; simpl in H; subst. reflexivity.
Qed.

Lemma X6_pause_resume_round_trip_witness :
  let W := world_rejecting [] in
  let s := playing_entry W Loop.NONE ("A", "a.mp3") in
  state s = State.PLAYING
  /\ toggle_play_state W 0 s = Ret (set_state State.PAUSED (emit Pause s))
  /\ toggle_play_state W 0 (set_state State.PAUSED (emit Pause s))
     = Ret (emit Unpause (emit Pause s)).
Proof.
  intros W s.
  assert (H : state s = State.PLAYING) by (vm_compute; reflexivity).
  split; [exact H|].
  exact (proj1 (X6_pause_resume_round_trip W 0 s) H).
Defined.

(** ** Next, then previous *)

Lemma index_of_nth_error (d : dict) : forall i e,
  dict_wf d = true -> nth_error d i = Some e -> index (fst e) (keys d) = Some i.
Proof.
  unfold dict_wf, keys.
  induction d as [|[k v] d IH]; intros i e Hwf Hi.
  - destruct i; discriminate.
  - simpl in Hwf. apply andb_true_iff in Hwf as [Hk Hwf].
    destruct i as [|i]; simpl in Hi.
    + injection Hi as <-. simpl. now rewrite String.eqb_refl.
    + simpl. destruct (String.eqb k (fst e)) eqn:E.
      * apply String.eqb_eq in E. subst k. apply negb_true_iff in Hk.
        assert (Hin : In (fst e) (map fst d))
          by (apply in_map, (nth_error_In _ _ Hi)).
        apply existsb_eqb_In in Hin. congruence.
      * now rewrite (IH i e Hwf Hi).
Qed.

(** An entry whose file the mixer accepts: it is selected and playing,
    and the playlist, the modes and the loaded flag are as before. *)
Lemma play_at_accepted W depth e s :
  snd e <> "" ->
  play W (trace s) (snd e) = true ->
  exists s',
    play_at W (S depth) e s = Ret s'
    /\ current_playlist_media s' = Some e
    /\ playing_song s' = Some (snd e)
    /\ state s' = State.PLAYING
    /\ playing_from_playlist s' = playing_from_playlist s
    /\ songs s' = songs s
    /\ loop s' = loop s
    /\ trace s' = Play (snd e) true :: trace s.
Proof.
  intros He Hok. unfold play_at.
  rewrite (play_song_cases W depth (snd e) _ _ He). cbv zeta.
  change (trace (set_current_playlist_media (Some e) s)) with (trace s).
  rewrite Hok.
  destruct (monitor_thread s) eqn:E; eexists; (split; [reflexivity|]);
    cbn; rewrite E; cbn; repeat split.
Qed.

(** X7.  The player plays from the playlist with loop mode NONE or ALL,
    a song is loaded, the selected title stands at index [i], and the
    mixer accepts every file of the playlist.  If index [i+1] exists or
    the mode is ALL, [next_song] followed by [previous_song] both return
    and bring the selection back to the entry at index [i], which is then
    the one playing. *)
Theorem X7_next_then_previous_returns W depth s e p i :
  playing_from_playlist s = true ->
  loop s <> Loop.ONE ->
  dict_wf (songs s) = true ->
  nth_error (songs s) i = Some e ->
  current_playlist_media s = Some (fst e, p) ->
  falsy (playing_song s) = false ->
  (forall history e', In e' (songs s) ->
                      snd e' <> "" /\ play W history (snd e') = true) ->
  i + 1 < length (songs s) \/ loop s = Loop.ALL ->
  exists s1 s2,
    next_song W (S depth) s = Ret s1
    /\ previous_song W (S depth) s1 = Ret s2
    /\ current_playlist_media s2 = Some e
    /\ playing_song s2 = Some (snd e)
    /\ state s2 = State.PLAYING.
Proof.
  intros Hfrom Hone Hwf Hi Hsel Hsong Hok Hcan.
  pose proof (index_of_nth_error _ _ _ Hwf Hi) as Hidx.
  assert (Hlt : i < length (songs s)) by (apply nth_error_Some; congruence).
  assert (Hnext : exists j e1,
             nth_error (songs s) j = Some e1
             /\ next_song W (S depth) s = play_at W (S depth) e1 s
             /\ (j = i + 1 \/ (j = 0 /\ i = length (songs s) - 1 /\ loop s = Loop.ALL))).
  { destruct (Nat.lt_ge_cases (i + 1) (length (songs s))) as [Hin|Hout].
    - destruct (next_song_in_range W (S depth) s (fst e) p i
                  Hfrom Hone Hwf Hsel Hidx Hsong Hin) as (e1 & He1 & Hrun).
      exists (i + 1), e1. auto.
    - destruct Hcan as [Hin|Hall]; [lia|].
      destruct (next_song_wraps W (S depth) s (fst e) p i
                  Hfrom Hone Hwf Hsel Hidx Hsong Hout Hall) as (e1 & He1 & Hrun).
      exists 0, e1. split; [assumption|]. split; [assumption|]. right.
      repeat split; [lia | assumption]. }
  destruct Hnext as (j & e1 & He1 & Hrun1 & Hj).
  destruct (Hok (trace s) e1 (nth_error_In _ _ He1)) as [Hp1 Hok1].
  destruct (play_at_accepted W depth e1 s Hp1 Hok1)
    as (s1 & Hat1 & Hsel1 & _ & _ & Hfrom1 & Hsongs1 & Hloop1 & _).
  exists s1.
  assert (Hfrom1' : playing_from_playlist s1 = true) by congruence.
  assert (Hone1 : loop s1 <> Loop.ONE) by congruence.
  assert (Hwf1 : dict_wf (songs s1) = true) by congruence.
  assert (Hsel1' : current_playlist_media s1 = Some (fst e1, snd e1))
    by (rewrite Hsel1; now destruct e1).
  assert (Hidx1 : index (fst e1) (keys (songs s1)) = Some j).
  { rewrite Hsongs1. now apply index_of_nth_error. }
  assert (Hprev : exists e0, nth_error (songs s) i = Some e0
                  /\ previous_song W (S depth) s1 = play_at W (S depth) e0 s1).
  { destruct Hj as [->|(-> & Hlast & Hall)].
    - destruct (previous_song_in_range W (S depth) s1 (fst e1) (snd e1) (i + 1)
                  Hfrom1' Hone1 Hwf1 Hsel1' Hidx1) as (e0 & He0 & Hrun);
        [lia|].
      exists e0. split; [|assumption].
      rewrite Hsongs1 in He0. now replace (i + 1 - 1) with i in He0 by lia.
    - destruct (previous_song_wraps W (S depth) s1 (fst e1) (snd e1) 0
                  Hfrom1' Hone1 Hwf1 Hsel1' Hidx1 eq_refl) as (e0 & He0 & Hrun);
        [congruence|].
      exists e0. split; [|assumption].
      rewrite Hsongs1, <- Hlast in He0. exact He0. }
  destruct Hprev as (e0 & He0 & Hrun2).
  assert (e0 = e) by congruence. subst e0.
  destruct (Hok (trace s1) e (nth_error_In _ _ Hi)) as [Hp Hoke].
  destruct (play_at_accepted W depth e s1 Hp Hoke)
    as (s2 & Hat2 & Hsel2 & Hsong2 & Hst2 & _).
  exists s2. rewrite Hrun1, Hrun2. repeat split; assumption.
Qed.

(** From C, the last of A, B, C, under ALL: next wraps to A, previous
    wraps back to C. *)
Lemma X7_next_then_previous_returns_witness :
  let W := world_rejecting [] in
  let s := playing_entry W Loop.ALL ("C", "c.mp3") in
  exists s1 s2,
    next_song W 3 s = Ret s1
    /\ current_playlist_media s1 = Some ("A", "a.mp3")
    /\ previous_song W 3 s1 = Ret s2
    /\ current_playlist_media s2 = Some ("C", "c.mp3").
Proof.
  intros W s.
  assert (H1 : playing_from_playlist s = true) by (vm_compute; reflexivity).
  assert (H2 : loop s <> Loop.ONE) by (vm_compute; discriminate).
  assert (H3 : dict_wf (songs s) = true) by (vm_compute; reflexivity).
  assert (H4 : nth_error (songs s) 2 = Some ("C", "c.mp3")) by (vm_compute; reflexivity).
  assert (H5 : current_playlist_media s = Some (fst ("C", "c.mp3"), "c.mp3"))
    by (vm_compute; reflexivity).
  assert (H6 : falsy (playing_song s) = false) by (vm_compute; reflexivity).
  assert (H7 : forall history e', In e' (songs s) ->
                 snd e' <> "" /\ play W history (snd e') = true).
  { intros history e' Hin. split; [|reflexivity].
    vm_compute in Hin. destruct Hin as [<-|[<-|[<-|[]]]]; discriminate. }
  assert (H8 : 2 + 1 < length (songs s) \/ loop s = Loop.ALL)
    by (right; vm_compute; reflexivity).
  destruct (X7_next_then_previous_returns W 2 s ("C", "c.mp3") "c.mp3" 2
              H1 H2 H3 H4 H5 H6 H7 H8) as (s1 & s2 & Hn & Hp & Hsel & _).
  exists s1, s2. split; [exact Hn|].
  split; [|split; [exact Hp | exact Hsel]].
  assert (E : s1 = final (next_song W 3 s)) by (now rewrite Hn).
  rewrite E. vm_compute. reflexivity.
Defined.

(** ** Shuffle and the titles *)

Lemma dict_get_In (d : dict) k v :
  dict_wf d = true -> (dict_get k d = Some v <-> In (k, v) d).
Proof.
  unfold dict_wf, keys.
  induction d as [|[k' v'] d IH]; intros Hwf; simpl.
  - split; [discriminate | intros []].
  - simpl in Hwf. apply andb_true_iff in Hwf as [Hk Hwf].
    apply negb_true_iff in Hk.
    destruct (String.eqb k' k) eqn:E.
    + apply String.eqb_eq in E. subst k'. split.
      * intros H. injection H as <-. now left.
      * intros [H|H]; [now injection H as <-|].
        assert (Hin : In k (map fst d)) by (apply (in_map fst _ _ H)).
        apply existsb_eqb_In in Hin. congruence.
    + apply String.eqb_neq in E. rewrite (IH Hwf). split.
      * intros H. now right.
      * intros [H|H]; [injection H as -> _; contradiction | assumption].
Qed.

Lemma dict_get_Permutation (d d' : dict) k :
  dict_wf d = true -> Permutation d d' -> dict_get k d' = dict_get k d.
Proof.
  intros Hwf Hp.
  pose proof (dict_wf_Permutation d d' Hp Hwf) as Hwf'.
  destruct (dict_get k d) as [v|] eqn:E.
  - apply (dict_get_In d' k v Hwf'). apply (Permutation_in _ Hp).
    now apply (dict_get_In d k v Hwf).
  - destruct (dict_get k d') as [v|] eqn:E'; [|reflexivity].
    apply (dict_get_In d' k v Hwf') in E'.
    apply (Permutation_in _ (Permutation_sym Hp)) in E'.
    apply (dict_get_In d k v Hwf) in E'. congruence.
Qed.

(** X8.  Turning shuffle on, on a player that shows at least one song,
    returns and only reorders the playlist: every title keeps its path,
    a title is displayed after the call exactly when it was before, and
    the loaded song, the selection and the state are untouched; so a
    selection found in the displayed order is still found in it. *)
Theorem X8_shuffle_on_keeps_titles s :
  songs s <> [] ->
  dict_wf (songs s) = true ->
  shuffle s = false ->
  exists s',
    toggle_shuffle_state s = Ret s'
    /\ (forall t, dict_get t (songs s') = dict_get t (songs s))
    /\ (forall t, In t (keys (songs s')) <-> In t (keys (songs s)))
    /\ dict_wf (songs s') = true
    /\ current_playlist_media s' = current_playlist_media s
    /\ playing_song s' = playing_song s
    /\ state s' = state s.
Proof.
  intros Hne Hwf Hsh.
  pose proof (random_shuffle_Permutation (rng s) (songs s)) as Hperm.
  pose proof (dict_wf_Permutation _ _ Hperm Hwf) as Hwf'.
  eexists. split; [apply (toggle_shuffle_on s Hne Hsh)|].
  cbn [songs set_shuffle playlist_populate playlist_clear emit set_songs
       current_playlist_media playing_song state set_rng set_current_playlist].
  rewrite (dict_of_wf _ Hwf').
  split; [|split; [|split; [exact Hwf'|repeat split]]].
  - intros t. now apply dict_get_Permutation.
  - intros t. unfold keys. split; apply Permutation_in, Permutation_map;
      [now apply Permutation_sym | assumption].
Qed.

(** A, B, C with the draws 2, 0, 5 while B is selected. *)
Lemma X8_shuffle_on_keeps_titles_witness :
  let s := playing_entry (world_rejecting []) Loop.NONE ("B", "b.mp3") in
  let s0 := set_rng [2; 0; 5] s in
  exists s',
    toggle_shuffle_state s0 = Ret s'
    /\ dict_get "B" (songs s') = Some "b.mp3"
    /\ current_playlist_media s' = Some ("B", "b.mp3").
Proof.
  intros s s0.
  assert (H1 : songs s0 <> []) by (vm_compute; discriminate).
  assert (H2 : dict_wf (songs s0) = true) by (vm_compute; reflexivity).
  assert (H3 : shuffle s0 = false) by (vm_compute; reflexivity).
  destruct (X8_shuffle_on_keeps_titles s0 H1 H2 H3)
    as (s' & Hrun & Hget & _ & _ & Hsel & _).
  exists s'. split; [exact Hrun|]. split.
  - rewrite Hget. vm_compute. reflexivity.
  - rewrite Hsel. vm_compute. reflexivity.
Defined.

(** ** A looping file that the mixer no longer accepts *)

Lemma play_song_rejected_loop W m depth : forall s,
  m <> "" ->
  playing_song s = Some m ->
  loop s <> Loop.NONE ->
  (forall l, play W (l ++ trace s) m = false) ->
  exists s', play_song W depth (Some m) false s = Raise RecursionError s'.
Proof.
  induction depth as [|depth IH]; intros s Hm Hsong Hloop Hrej.
  - now exists s.
  - rewrite (play_song_cases W depth m false s Hm). cbv zeta.
    rewrite (Hrej [] : play W (trace s) m = false).
    set (s1 := emit (Play m false)
                 (set_playing_from_playlist false (set_state_switch true s))).
    assert (Hnext : next_song W depth s1 = play_song W depth (Some m) false s1).
    { unfold next_song, next_song_with.
      change (playing_song s1) with (playing_song s).
      change (playing_from_playlist s1) with false.
      change (loop s1) with (loop s).
      rewrite Hsong, (falsy_Some _ Hm), (loop_eqb_neq _ _ Hloop). reflexivity. }
    rewrite Hnext.
    destruct (IH s1 Hm Hsong Hloop) as (s' & Hrun).
    + intros l. change (trace s1) with (Play m false :: trace s).
      change (l ++ Play m false :: trace s)
        with (l ++ [Play m false] ++ trace s).
      rewrite app_assoc. apply Hrej.
    + exists s'. now rewrite Hrun.
Qed.

(** X9.  A file that is not from the playlist is loaded under loop mode
    ONE or ALL and the mixer rejects it from now on.  Then replaying it
    never ends: whatever recursion limit the interpreter allows,
    [play_song] on it, [next_song], [previous_song] and, unless the
    player is PAUSED, the end-of-song handler are all left by
    RecursionError. *)
Theorem X9_rejected_looping_file_recurses W m s depth :
  m <> "" ->
  playing_song s = Some m ->
  playing_from_playlist s = false ->
  loop s <> Loop.NONE ->
  (forall l, play W (l ++ trace s) m = false) ->
  (exists s', play_song W depth (Some m) false s = Raise RecursionError s')
  /\ (exists s', next_song W depth s = Raise RecursionError s')
  /\ (exists s', previous_song W depth s = Raise RecursionError s')
  /\ (state s <> State.PAUSED ->
      exists s', handle_song_end W depth s = Raise RecursionError s').
Proof.
  intros Hm Hsong Hfrom Hloop Hrej.
  pose proof (play_song_rejected_loop W m depth s Hm Hsong Hloop Hrej) as Hplay.
  split; [exact Hplay|]. split; [|split].
  - unfold next_song, next_song_with.
    rewrite Hsong, (falsy_Some _ Hm), Hfrom, (loop_eqb_neq _ _ Hloop). exact Hplay.
  - unfold previous_song, previous_song_with.
    rewrite Hfrom, (loop_eqb_neq _ _ Hloop), Hsong. exact Hplay.
  - intros Hst. unfold handle_song_end.
    change (state (emit SongEnd s)) with (state s).
    change (playing_from_playlist (emit SongEnd s)) with (playing_from_playlist s).
    change (loop (emit SongEnd s)) with (loop s).
    change (playing_song (emit SongEnd s)) with (playing_song s).
    assert (E : State.eqb (state s) State.PAUSED = false).
    { destruct (State.eqb (state s) State.PAUSED) eqn:E; [|reflexivity].
      apply state_eqb_eq in E. contradiction. }
    rewrite E, Hfrom, (loop_eqb_neq _ _ Hloop), Hsong. simpl negb. cbv iota.
    apply (play_song_rejected_loop W m depth (emit SongEnd s) Hm Hsong Hloop).
    intros l. change (trace (emit SongEnd s)) with ([SongEnd] ++ trace s).
    rewrite app_assoc. apply Hrej.
Qed.

(** x.mp3 is played once under ONE and is gone afterwards. *)
Lemma X9_rejected_looping_file_recurses_witness :
  let W := world_first_only in
  let s := final (play_song W 1 (Some "x.mp3") false (set_loop Loop.ONE (init [] []))) in
  state s = State.PLAYING
  /\ playing_song s = Some "x.mp3"
  /\ exists s', handle_song_end W 1000 s = Raise RecursionError s'.
Proof.
  intros W s.
  assert (Hm : "x.mp3" <> "") by discriminate.
  assert (Hsong : playing_song s = Some "x.mp3") by (vm_compute; reflexivity).
  assert (Hfrom : playing_from_playlist s = false) by (vm_compute; reflexivity).
  assert (Hloop : loop s <> Loop.NONE) by (vm_compute; discriminate).
  assert (Hrej : forall l, play W (l ++ trace s) "x.mp3" = false).
  { intros l. change (trace s) with [Play "x.mp3" true].
    destruct l; reflexivity. }
  assert (Hst : state s <> State.PAUSED) by (vm_compute; discriminate).
  split; [vm_compute; reflexivity|]. split; [exact Hsong|].
  exact (proj2 (proj2 (proj2 (X9_rejected_looping_file_recurses W "x.mp3" s 1000
                                Hm Hsong Hfrom Hloop Hrej))) Hst).
Defined.

(** ** What playing and navigating leave alone *)

Ltac settings_frame :=
  unfold same_settings; simpl; intros;
  repeat match goal with H : _ /\ _ |- _ => destruct H end;
  repeat split; congruence.

(** X10.  [play_song], [play_from_playlist], [next_song],
    [previous_song], [toggle_play_state], the end-of-song handler and a
    turn of the monitor loop, returning or raising, at any recursion
    limit, never write the playlist, the loop mode, the shuffle flag, the
    kept order, the volume, the running flag or the generator. *)
Theorem X10_playback_keeps_settings W depth s :
  (forall media from_playlist,
      same_settings s (final (play_song W depth media from_playlist s)))
  /\ (forall media, same_settings s (final (play_from_playlist W depth media s)))
  /\ same_settings s (final (next_song W depth s))
  /\ same_settings s (final (previous_song W depth s))
  /\ same_settings s (final (toggle_play_state W depth s))
  /\ same_settings s (final (handle_song_end W depth s))
  /\ (forall busy, same_settings s (final (monitor_iteration W depth busy s))).
Proof.
  split; [|split; [|split; [|split; [|split; [|split]]]]]; intros.
  - apply play_song_keeps; settings_frame.
  - apply play_from_playlist_keeps; settings_frame.
  - apply next_song_keeps; settings_frame.
  - apply previous_song_keeps; settings_frame.
  - apply toggle_play_state_keeps; settings_frame.
  - apply handle_song_end_keeps; settings_frame.
  - apply monitor_iteration_keeps; settings_frame.
Qed.

(** ** Loop mode ONE *)

Lemma play_song_accepted_replay W depth m from_playlist s :
  m <> "" ->
  play W (trace s) m = true ->
  exists s',
    play_song W (S depth) (Some m) from_playlist s = Ret s'
    /\ state s' = State.PLAYING
    /\ playing_song s' = Some m
    /\ current_playlist_media s' = current_playlist_media s
    /\ trace s' = Play m true :: trace s.
Proof.
  intros Hm Hok.
  destruct (play_song_accepted W depth m from_playlist s Hm Hok)
    as (s' & Hrun & Hst & Hsong & _ & _ & _ & Hsel & _ & Htr).
  exists s'. repeat split; assumption.
Qed.

(** X11.  Under loop mode ONE, with a song loaded that the mixer accepts,
    [next_song] and [previous_song] do the same thing, from the playlist
    or not: they play the loaded song again and leave the selection where
    it is.  So does the end-of-song handler, unless the player is PAUSED
    or plays from a playlist that shows no song. *)
Theorem X11_loop_one_replays W depth s m :
  loop s = Loop.ONE ->
  playing_song s = Some m ->
  m <> "" ->
  (forall history, play W history m = true) ->
  (exists s',
      next_song W (S depth) s = Ret s'
      /\ previous_song W (S depth) s = Ret s'
      /\ state s' = State.PLAYING
      /\ playing_song s' = Some m
      /\ current_playlist_media s' = current_playlist_media s
      /\ trace s' = Play m true :: trace s)
  /\ (state s <> State.PAUSED ->
      playing_from_playlist s = false \/ songs s <> [] ->
      exists s',
        handle_song_end W (S depth) s = Ret s'
        /\ state s' = State.PLAYING
        /\ playing_song s' = Some m
        /\ current_playlist_media s' = current_playlist_media s
        /\ trace s' = Play m true :: SongEnd :: trace s).
Proof.
  intros Hloop Hsong Hm Hok.
  assert (Hnext : forall s0, loop s0 = Loop.ONE -> playing_song s0 = Some m ->
            next_song W (S depth) s0
            = play_song W (S depth) (Some m) (playing_from_playlist s0) s0).
  { intros s0 Hl Hs. unfold next_song, next_song_with.
    rewrite Hs, (falsy_Some _ Hm), Hl. simpl Loop.eqb.
    rewrite !andb_false_r. reflexivity. }
  split.
  - destruct (play_song_accepted_replay W depth m (playing_from_playlist s) s
                Hm (Hok _)) as (s' & Hrun & Hrest).
    exists s'. split; [now rewrite Hnext|]. split; [|exact Hrest].
    unfold previous_song, previous_song_with.
    rewrite Hloop, Hsong. simpl Loop.eqb. rewrite !andb_false_r. exact Hrun.
  - intros Hst Hcan. unfold handle_song_end.
    set (s0 := emit SongEnd s).
    assert (E : State.eqb (state s0) State.PAUSED = false).
    { destruct (State.eqb (state s0) State.PAUSED) eqn:E; [|reflexivity].
      apply state_eqb_eq in E. contradiction. }
    rewrite E.
    destruct (playing_from_playlist s0) eqn:Hfrom; simpl negb; cbv iota.
    + destruct Hcan as [Hc|Hc]; [change (playing_from_playlist s0)
        with (playing_from_playlist s) in Hfrom; congruence|].
      change (songs s0) with (songs s).
      destruct (songs s) as [|x d]; [contradiction|].
      rewrite (Hnext s0 Hloop Hsong).
      apply (play_song_accepted_replay W depth m _ s0 Hm (Hok _)).
    + change (loop s0) with (loop s). rewrite Hloop. simpl.
      change (playing_song s0) with (playing_song s). rewrite Hsong.
      apply (play_song_accepted_replay W depth m false s0 Hm (Hok _)).
Qed.

(** B of A, B, C plays under ONE. *)
Lemma X11_loop_one_replays_witness :
  let W := world_rejecting [] in
  let s := playing_entry W Loop.ONE ("B", "b.mp3") in
  exists s',
    next_song W 3 s = Ret s'
    /\ previous_song W 3 s = Ret s'
    /\ playing_song s' = Some "b.mp3"
    /\ current_playlist_media s' = current_playlist_media s.
Proof.
  intros W s.
  assert (H1 : loop s = Loop.ONE) by (vm_compute; reflexivity).
  assert (H2 : playing_song s = Some "b.mp3") by (vm_compute; reflexivity).
  assert (H3 : "b.mp3" <> "") by discriminate.
  assert (H4 : forall history, play W history "b.mp3" = true) by reflexivity.
  destruct (proj1 (X11_loop_one_replays W 2 s "b.mp3" H1 H2 H3 H4))
    as (s' & Hn & Hp & _ & Hsong & Hsel & _).
  exists s'. repeat split; assumption.
Defined.

(** ** One warning for each rejected file *)

Lemma rejections_app l1 l2 : rejections (l1 ++ l2) = rejections l1 + rejections l2.
Proof.
  induction l1 as [|e l1 IH]; [reflexivity|].
  destruct e as [m [|]| | | | | | | | | |]; simpl; now rewrite IH.
Qed.

Lemma warnings_app l1 l2 : warnings (l1 ++ l2) = warnings l1 + warnings l2.
Proof.
  induction l1 as [|e l1 IH]; [reflexivity|].
  destruct e; simpl; now rewrite IH.
Qed.

Lemma warned_refl s : warned_each_rejection s s.
Proof. now exists []. Qed.

Lemma warned_trans s1 s2 s3 :
  warned_each_rejection s1 s2 -> warned_each_rejection s2 s3 ->
  warned_each_rejection s1 s3.
Proof.
  intros (l1 & H1 & B1) (l2 & H2 & B2). exists (l2 ++ l1). split.
  - now rewrite H2, H1, app_assoc.
  - rewrite rejections_app, warnings_app. lia.
Qed.

Lemma warned_stopped s : warned_each_rejection s (stopped s).
Proof. now exists [Stop]. Qed.

Lemma next_song_with_warned ps s :
  (forall media fp s0, on_return (warned_each_rejection s0) (ps media fp s0)) ->
  on_return (warned_each_rejection s) (next_song_with ps s).
Proof.
  intros Hps.
  apply (next_song_with_ensures (warned_each_rejection s)
           (on_return (warned_each_rejection s)) ps); simpl; auto.
  - intros s0 H. apply (warned_trans _ _ _ H), warned_stopped.
  - intros media fp s0 H. specialize (Hps media fp s0).
    destruct (ps media fp s0) as [s'|e s']; simpl in *; [|exact I].
    now apply (warned_trans _ _ _ H).
  - apply warned_refl.
Qed.

Lemma previous_song_with_warned ps s :
  (forall media fp s0, on_return (warned_each_rejection s0) (ps media fp s0)) ->
  on_return (warned_each_rejection s) (previous_song_with ps s).
Proof.
  intros Hps.
  apply (previous_song_with_ensures (warned_each_rejection s)
           (on_return (warned_each_rejection s)) ps); simpl; auto.
  - intros s0 H. apply (warned_trans _ _ _ H), warned_stopped.
  - intros media fp s0 H. specialize (Hps media fp s0).
    destruct (ps media fp s0) as [s'|e s']; simpl in *; [|exact I].
    now apply (warned_trans _ _ _ H).
  - apply warned_refl.
Qed.

Lemma play_song_warned W depth : forall media from_playlist s,
  on_return (warned_each_rejection s) (play_song W depth media from_playlist s).
Proof.
  induction depth as [|depth IH]; intros media fp s; [exact I|].
  destruct (falsy media) eqn:Hf.
  - rewrite (play_song_falsy W depth media fp s Hf). apply warned_refl.
  - destruct (falsy_false_Some media Hf) as (m & -> & Hm).
    rewrite (play_song_cases W depth m fp s Hm). cbv zeta.
    destruct (play W (trace s) m).
    + destruct (negb (monitor_thread s)) eqn:E; cbn; rewrite E;
        now exists [Play m true].
    + pose proof (next_song_with_warned (play_song W depth)
                    (emit (Play m false)
                       (set_playing_from_playlist fp (set_state_switch true s)))
                    IH) as Hnext.
      unfold next_song.
      destruct (next_song_with _ _) as [s2|e s2]; simpl in *; [|exact I].
      destruct Hnext as (l & Htr & Hbal).
      exists (Notify "Unable to play the media file." :: l ++ [Play m false]).
      split.
      * cbn [trace set_state_switch emit set_playing_from_playlist] in *.
        rewrite Htr. simpl. now rewrite <- app_assoc.
      * simpl. rewrite rejections_app, warnings_app. simpl. lia.
Qed.

(** X12.  Whenever [play_song], [next_song] or [previous_song] returns,
    the events it added to the trace hold exactly one warning to the user
    for each file the mixer rejected during the call. *)
Theorem X12_one_warning_per_rejection W depth s s' :
  (forall media from_playlist,
      play_song W depth media from_playlist s = Ret s' ->
      exists l, trace s' = l ++ trace s /\ rejections l = warnings l)
  /\ (next_song W depth s = Ret s' ->
      exists l, trace s' = l ++ trace s /\ rejections l = warnings l)
  /\ (previous_song W depth s = Ret s' ->
      exists l, trace s' = l ++ trace s /\ rejections l = warnings l).
Proof.
  split; [|split].
  - intros media fp E. pose proof (play_song_warned W depth media fp s) as H.
    now rewrite E in H.
  - intros E.
    pose proof (next_song_with_warned (play_song W depth) s
                  (play_song_warned W depth)) as H.
    unfold next_song in E. now rewrite E in H.
  - intros E.
    pose proof (previous_song_with_warned (play_song W depth) s
                  (play_song_warned W depth)) as H.
    unfold previous_song in E. now rewrite E in H.
Qed.

(** A plays; b.mp3 and c.mp3 are rejected under ALL: next comes back to
    A after two rejections and two warnings. *)
Lemma X12_one_warning_per_rejection_witness :
  let W := world_rejecting ["b.mp3"; "c.mp3"] in
  let s := playing_entry W Loop.ALL ("A", "a.mp3") in
  exists s' l,
    next_song W 4 s = Ret s'
    /\ trace s' = l ++ trace s
    /\ rejections l = 2
    /\ warnings l = 2.
Proof.
  intros W s.
  assert (E : next_song W 4 s = Ret (final (next_song W 4 s)))
    by (vm_compute; reflexivity).
  destruct (proj1 (proj2 (X12_one_warning_per_rejection W 4 s _)) E)
    as (l & Htr & Hbal).
  exists (final (next_song W 4 s)), l.
  split; [exact E|]. split; [exact Htr|].
  assert (Hl : l = firstn 5 (trace (final (next_song W 4 s)))).
  { rewrite Htr. apply (f_equal (@length Event)) in Htr.
    rewrite length_app in Htr.
    assert (H6 : length (trace (final (next_song W 4 s))) = 6)
      by (vm_compute; reflexivity).
    assert (H1 : length (trace s) = 1) by (vm_compute; reflexivity).
    assert (Hlen : length l = 5) by lia.
    rewrite firstn_app, Hlen, Nat.sub_diag, firstn_O, app_nil_r.
    symmetry. apply firstn_all2. lia. }
  rewrite <- Hbal. rewrite Hl. split; vm_compute; reflexivity.
Defined.

(** ** After the end of the playlist *)

(** X13.  The last entry of the playlist plays under loop mode NONE and
    the mixer accepts its file.  [next_song] stops the player, keeping
    the song and the selection; [toggle_play_state] after it plays that
    same song again, from the playlist, the selection unchanged. *)
Theorem X13_replay_after_playlist_end W depth s t p i m :
  playing_from_playlist s = true ->
  loop s = Loop.NONE ->
  current_playlist_media s = Some (t, p) ->
  index t (keys (songs s)) = Some i ->
  length (songs s) <= i + 1 ->
  playing_song s = Some m ->
  m <> "" ->
  play W (Stop :: trace s) m = true ->
  next_song W depth s = Ret (stopped s)
  /\ exists s',
      toggle_play_state W (S depth) (stopped s) = Ret s'
      /\ state s' = State.PLAYING
      /\ playing_song s' = Some m
      /\ playing_from_playlist s' = true
      /\ current_playlist_media s' = Some (t, p)
      /\ trace s' = Play m true :: Stop :: trace s.
Proof.
  intros Hfrom Hloop Hsel Hidx Hlast Hsong Hm Hok.
  split.
  - unfold next_song, next_song_with.
    rewrite Hsong, (falsy_Some _ Hm), Hfrom, Hloop, Hsel, Hidx, keys_length.
    simpl. apply Nat.ltb_ge in Hlast. now rewrite Hlast.
  - unfold toggle_play_state.
    change (state (stopped s)) with State.STOPPED.
    change (playing_song (stopped s)) with (playing_song s).
    change (playing_from_playlist (stopped s)) with (playing_from_playlist s).
    rewrite Hsong, Hfrom. simpl State.eqb. cbv iota. simpl andb. cbv iota.
    destruct (play_song_accepted W depth m true (stopped s) Hm Hok)
      as (s' & Hrun & Hst & Hs & Hf & _ & _ & Hcpm & _ & Htr).
    exists s'. repeat split; try assumption.
    rewrite Hcpm. exact Hsel.
Qed.

(** C, the last of A, B, C, plays under NONE. *)
Lemma X13_replay_after_playlist_end_witness :
  let W := world_rejecting [] in
  let s := playing_entry W Loop.NONE ("C", "c.mp3") in
  next_song W 3 s = Ret (stopped s)
  /\ exists s',
      toggle_play_state W 3 (stopped s) = Ret s'
      /\ playing_song s' = Some "c.mp3"
      /\ current_playlist_media s' = Some ("C", "c.mp3").
Proof.
  intros W s.
  assert (H1 : playing_from_playlist s = true) by (vm_compute; reflexivity).
  assert (H2 : loop s = Loop.NONE) by (vm_compute; reflexivity).
  assert (H3 : current_playlist_media s = Some ("C", "c.mp3")) by (vm_compute; reflexivity).
  assert (H4 : index "C" (keys (songs s)) = Some 2) by (vm_compute; reflexivity).
  assert (H5 : length (songs s) <= 2 + 1) by (vm_compute; lia).
  assert (H6 : playing_song s = Some "c.mp3") by (vm_compute; reflexivity).
  assert (H7 : "c.mp3" <> "") by discriminate.
  assert (H8 : play W (Stop :: trace s) "c.mp3" = true) by reflexivity.
  destruct (X13_replay_after_playlist_end W 2 s "C" "c.mp3" 2 "c.mp3"
              H1 H2 H3 H4 H5 H6 H7 H8)
    as (Hnext & s' & Hrun & _ & Hsong & _ & Hsel & _).
  split.
  - unfold next_song, next_song_with.
    rewrite H6, H1, H2, H3, H4. vm_compute. reflexivity.
  - exists s'. repeat split; assumption.
Defined.

(** ** Skipping the entries the mixer rejects *)

Lemma play_at_rejected W depth e s :
  snd e <> "" ->
  play W (trace s) (snd e) = false ->
  play_at W (S depth) e s
  = next_song W depth
      (emit (Play (snd e) false)
         (set_playing_from_playlist (playing_from_playlist s)
            (set_state_switch true (set_current_playlist_media (Some e) s))))
    >>= fun s' =>
    Ret (set_state_switch false
           (emit (Notify "Unable to play the media file.") s')).
Proof.
  intros He Hrej. unfold play_at.
  rewrite (play_song_cases W depth (snd e) _ _ He). cbv zeta.
  change (trace (set_current_playlist_media (Some e) s)) with (trace s).
  now rewrite Hrej.
Qed.

(** X14.  The player plays from the playlist with loop mode NONE or ALL,
    a song is loaded and the selected title stands at index [i].  If the
    mixer rejects the files of the entries after [i] up to some entry
    that it accepts, [next_song] returns, at a recursion limit of one
    frame per entry tried, with that entry selected and playing and the
    switch flag down: the rejected entries are skipped. *)
Theorem X14_next_song_skips_rejected W depth gap s t p i ej :
  playing_from_playlist s = true ->
  loop s <> Loop.ONE ->
  dict_wf (songs s) = true ->
  current_playlist_media s = Some (t, p) ->
  index t (keys (songs s)) = Some i ->
  falsy (playing_song s) = false ->
  (forall k e, i < k < i + 1 + gap -> nth_error (songs s) k = Some e ->
               snd e <> "" /\ forall history, play W history (snd e) = false) ->
  nth_error (songs s) (i + 1 + gap) = Some ej ->
  snd ej <> "" ->
  (forall history, play W history (snd ej) = true) ->
  exists s',
    next_song W (S gap + depth) s = Ret s'
    /\ current_playlist_media s' = Some ej
    /\ playing_song s' = Some (snd ej)
    /\ state s' = State.PLAYING
    /\ state_switch s' = false.
Proof.
  revert s t p i ej.
  induction gap as [|gap IH];
    intros s t p i ej Hfrom Hone Hwf Hsel Hidx Hsong Hrej Hj Hpj Hokj.
  - assert (Hlt : i + 1 < length (songs s)).
    { apply nth_error_Some. rewrite Nat.add_0_r in Hj. congruence. }
    destruct (next_song_in_range W (1 + depth) s t p i
                Hfrom Hone Hwf Hsel Hidx Hsong Hlt) as (e1 & He1 & Hrun).
    rewrite Nat.add_0_r in Hj. assert (e1 = ej) by congruence. subst e1.
    rewrite Hrun.
    destruct (play_song_accepted W depth (snd ej) (playing_from_playlist s)
                (set_current_playlist_media (Some ej) s) Hpj (Hokj _))
      as (s' & Hat & Hst & Hs & _ & Hsw & _ & Hcpm & _).
    exists s'. repeat split; assumption.
  - assert (Hlt : i + 1 < length (songs s)).
    { assert (i + 1 + S gap < length (songs s))
        by (apply nth_error_Some; congruence). lia. }
    destruct (next_song_in_range W (S (S gap) + depth) s t p i
                Hfrom Hone Hwf Hsel Hidx Hsong Hlt) as (e1 & He1 & Hrun).
    destruct (Hrej (i + 1) e1 ltac:(lia) He1) as [Hp1 Hrej1].
    rewrite Hrun.
    change (S (S gap) + depth) with (S (S gap + depth)).
    rewrite (play_at_rejected W (S gap + depth) e1 s Hp1 (Hrej1 _)).
    set (s1 := emit (Play (snd e1) false)
                 (set_playing_from_playlist (playing_from_playlist s)
                    (set_state_switch true
                       (set_current_playlist_media (Some e1) s)))).
    destruct (IH s1 (fst e1) (snd e1) (i + 1) ej) as (s2 & Hrun2 & Hcpm & Hs & Hst & _).
    + exact Hfrom.
    + exact Hone.
    + exact Hwf.
    + subst s1. cbn. now destruct e1.
    + change (songs s1) with (songs s). now apply index_of_nth_error.
    + exact Hsong.
    + intros k e Hk. apply Hrej. lia.
    + now replace (i + 1 + 1 + gap) with (i + 1 + S gap) by lia.
    + exact Hpj.
    + exact Hokj.
    + rewrite Hrun2. simpl. eexists. split; [reflexivity|].
      repeat split; assumption.
Qed.

(** A of A, B, C plays and b.mp3 is rejected: next plays C. *)
Lemma X14_next_song_skips_rejected_witness :
  let W := world_rejecting ["b.mp3"] in
  let s := playing_entry W Loop.NONE ("A", "a.mp3") in
  exists s',
    next_song W 2 s = Ret s'
    /\ current_playlist_media s' = Some ("C", "c.mp3")
    /\ playing_song s' = Some "c.mp3".
Proof.
  intros W s.
  assert (H1 : playing_from_playlist s = true) by (vm_compute; reflexivity).
  assert (H2 : loop s <> Loop.ONE) by (vm_compute; discriminate).
  assert (H3 : dict_wf (songs s) = true) by (vm_compute; reflexivity).
  assert (H4 : current_playlist_media s = Some ("A", "a.mp3")) by (vm_compute; reflexivity).
  assert (H5 : index "A" (keys (songs s)) = Some 0) by (vm_compute; reflexivity).
  assert (H6 : falsy (playing_song s) = false) by (vm_compute; reflexivity).
  assert (H7 : forall k e, 0 < k < 0 + 1 + 1 -> nth_error (songs s) k = Some e ->
                 snd e <> "" /\ forall history, play W history (snd e) = false).
  { intros k e Hk He. assert (k = 1) by lia. subst k.
    vm_compute in He. injection He as <-. split; [discriminate | reflexivity]. }
  assert (H8 : nth_error (songs s) (0 + 1 + 1) = Some ("C", "c.mp3"))
    by (vm_compute; reflexivity).
  assert (H9 : snd ("C", "c.mp3") <> "") by discriminate.
  assert (H10 : forall history, play W history (snd ("C", "c.mp3")) = true)
    by reflexivity.
  destruct (X14_next_song_skips_rejected W 0 1 s "A" "a.mp3" 0 ("C", "c.mp3")
              H1 H2 H3 H4 H5 H6 H7 H8 H9 H10)
    as (s' & Hrun & Hsel & Hsong & _).
  exists s'. repeat split; assumption.
Defined.

(** X15.  The player plays from the playlist under loop mode NONE, a
    song is loaded, the selected title stands at index [i], and the mixer
    rejects the file of every entry after [i].  Then [next_song] returns,
    at a recursion limit of one frame per entry tried, with the player
    STOPPED, the loaded song as before and the selection on the last
    title of the playlist. *)
Theorem X15_next_song_stops_after_rejections W depth gap s t p i :
  playing_from_playlist s = true ->
  loop s = Loop.NONE ->
  dict_wf (songs s) = true ->
  current_playlist_media s = Some (t, p) ->
  index t (keys (songs s)) = Some i ->
  falsy (playing_song s) = false ->
  (forall k e, i < k -> nth_error (songs s) k = Some e ->
               snd e <> "" /\ forall history, play W history (snd e) = false) ->
  length (songs s) = i + 1 + gap ->
  exists s' last path,
    next_song W (gap + depth) s = Ret s'
    /\ state s' = State.STOPPED
    /\ playing_song s' = playing_song s
    /\ nth_error (keys (songs s)) (i + gap) = Some last
    /\ current_playlist_media s' = Some (last, path).
Proof.
  revert s t p i.
  induction gap as [|gap IH];
    intros s t p i Hfrom Hloop Hwf Hsel Hidx Hsong Hrej Hlen.
  - assert (Hone : loop s <> Loop.ONE) by (rewrite Hloop; discriminate).
    assert (Hge : length (songs s) <= i + 1) by lia.
    rewrite (next_song_stops W (0 + depth) s t p i
               Hfrom Hone Hsel Hidx Hsong Hge Hloop).
    exists (stopped s), t, p. rewrite Nat.add_0_r.
    repeat split; [now apply index_nth_error | exact Hsel].
  - assert (Hone : loop s <> Loop.ONE) by (rewrite Hloop; discriminate).
    assert (Hlt : i + 1 < length (songs s)) by lia.
    destruct (next_song_in_range W (S gap + depth) s t p i
                Hfrom Hone Hwf Hsel Hidx Hsong Hlt) as (e1 & He1 & Hrun).
    destruct (Hrej (i + 1) e1 ltac:(lia) He1) as [Hp1 Hrej1].
    rewrite Hrun.
    change (S gap + depth) with (S (gap + depth)).
    rewrite (play_at_rejected W (gap + depth) e1 s Hp1 (Hrej1 _)).
    set (s1 := emit (Play (snd e1) false)
                 (set_playing_from_playlist (playing_from_playlist s)
                    (set_state_switch true
                       (set_current_playlist_media (Some e1) s)))).
    destruct (IH s1 (fst e1) (snd e1) (i + 1))
      as (s2 & last & path & Hrun2 & Hst & Hs & Hlast & Hcpm).
    + exact Hfrom.
    + exact Hloop.
    + exact Hwf.
    + subst s1. cbn. now destruct e1.
    + change (songs s1) with (songs s). now apply index_of_nth_error.
    + exact Hsong.
    + intros k e Hk. apply Hrej. lia.
    + change (songs s1) with (songs s). lia.
    + rewrite Hrun2. simpl. eexists. exists last, path.
      split; [reflexivity|].
      change (songs s1) with (songs s) in Hlast.
      replace (i + 1 + gap) with (i + S gap) in Hlast by lia.
      repeat split; assumption.
Qed.

(** A of A, B, C plays under NONE, b.mp3 and c.mp3 are rejected. *)
Lemma X15_next_song_stops_after_rejections_witness :
  let W := world_rejecting ["b.mp3"; "c.mp3"] in
  let s := playing_entry W Loop.NONE ("A", "a.mp3") in
  exists s' path,
    next_song W 2 s = Ret s'
    /\ state s' = State.STOPPED
    /\ playing_song s' = Some "a.mp3"
    /\ current_playlist_media s' = Some ("C", path).
Proof.
  intros W s.
  assert (H1 : playing_from_playlist s = true) by (vm_compute; reflexivity).
  assert (H2 : loop s = Loop.NONE) by (vm_compute; reflexivity).
  assert (H3 : dict_wf (songs s) = true) by (vm_compute; reflexivity).
  assert (H4 : current_playlist_media s = Some ("A", "a.mp3")) by (vm_compute; reflexivity).
  assert (H5 : index "A" (keys (songs s)) = Some 0) by (vm_compute; reflexivity).
  assert (H6 : falsy (playing_song s) = false) by (vm_compute; reflexivity).
  assert (H7 : forall k e, 0 < k -> nth_error (songs s) k = Some e ->
                 snd e <> "" /\ forall history, play W history (snd e) = false).
  { intros k e Hk He. change (songs s) with abc in He.
    destruct k as [|[|[|k]]]; [lia| | |].
    - injection He as <-. split; [discriminate | reflexivity].
    - injection He as <-. split; [discriminate | reflexivity].
    - destruct k; discriminate. }
  assert (H8 : length (songs s) = 0 + 1 + 2) by (vm_compute; reflexivity).
  destruct (X15_next_song_stops_after_rejections W 0 2 s "A" "a.mp3" 0
              H1 H2 H3 H4 H5 H6 H7 H8)
    as (s' & last & path & Hrun & Hst & Hsong & Hlast & Hsel).
  exists s', path. split; [exact Hrun|]. split; [exact Hst|]. split.
  - rewrite Hsong. vm_compute. reflexivity.
  - assert (E : last = "C") by (vm_compute in Hlast; congruence).
    now rewrite <- E.
Defined.

(** ** The monitor loop at the end of a song that is not looped *)

(** With the switch flag down, the monitor loop leaves a player that is
    not PLAYING as it is, whatever the mixer answers. *)
Lemma monitor_song_end_idle W depth (answers : list bool) : forall s,
  state_switch s = false ->
  state s <> State.PLAYING ->
  monitor_song_end W depth answers s = Ret s.
Proof.
  induction answers as [|b answers IH]; intros s Hsw Hst; [reflexivity|].
  cbn [monitor_song_end]. destruct (running s); [|reflexivity].
  assert (E : State.eqb (state s) State.PLAYING && negb b = false).
  { destruct (State.eqb (state s) State.PLAYING) eqn:E; [|reflexivity].
    apply state_eqb_eq in E. contradiction. }
  rewrite (monitor_iteration_no_sleep W depth b s Hsw E). cbn [bind].
  now apply IH.
Qed.

(** X16.  A file that is not from the playlist plays under loop mode
    NONE and comes to its end.  Over the turns of the monitor loop that
    follow, whatever the mixer then answers turn by turn, the end-of-song
    handler is entered once: the state becomes STOPPED, no file is given
    to the mixer, the song stays loaded, and the loop sleeps once. *)
Theorem X16_monitor_stops_once W depth s (answers : list bool) :
  running s = true ->
  state_switch s = false ->
  state s = State.PLAYING ->
  playing_from_playlist s = false ->
  loop s = Loop.NONE ->
  monitor_song_end W depth (false :: answers) s
  = Ret (emit (Sleep (1 # 2)) (set_state State.STOPPED (emit SongEnd s))).
Proof.
  intros Hrun Hsw Hst Hfrom Hloop.
  cbn [monitor_song_end]. rewrite Hrun.
  assert (Hit : monitor_iteration W depth false s
                = Ret (emit (Sleep (1 # 2))
                         (set_state State.STOPPED (emit SongEnd s)))).
  { unfold monitor_iteration, handle_song_end. rewrite Hsw, Hst.
    cbn [State.eqb andb negb].
    change (state (emit SongEnd s)) with (state s).
    change (playing_from_playlist (emit SongEnd s)) with (playing_from_playlist s).
    change (loop (emit SongEnd s)) with (loop s).
    rewrite Hst, Hfrom, Hloop. reflexivity. }
  rewrite Hit. cbn [bind].
  apply monitor_song_end_idle; [exact Hsw | discriminate].
Qed.

(** x.mp3 has been played from the file explorer and has ended. *)
Lemma X16_monitor_stops_once_witness :
  let W := world_rejecting [] in
  let s := final (run W 1 (CPlaySong (Some "x.mp3") false) (init abc [])) in
  (running s = true /\ state_switch s = false /\ state s = State.PLAYING
   /\ playing_from_playlist s = false /\ loop s = Loop.NONE)
  /\ monitor_song_end W 1 [false; true; false; false; true] s
     = Ret (emit (Sleep (1 # 2)) (set_state State.STOPPED (emit SongEnd s))).
Proof.
  intros W s.
  assert (H1 : running s = true) by (vm_compute; reflexivity).
  assert (H2 : state_switch s = false) by (vm_compute; reflexivity).
  assert (H3 : state s = State.PLAYING) by (vm_compute; reflexivity).
  assert (H4 : playing_from_playlist s = false) by (vm_compute; reflexivity).
  assert (H5 : loop s = Loop.NONE) by (vm_compute; reflexivity).
  split; [repeat split; assumption|].
  exact (X16_monitor_stops_once W 1 s [true; false; false; true] H1 H2 H3 H4 H5).
Defined.
